(** * Billiards physics step and shot controller (game_cpp/game.cpp)

    A shallow embedding of [Vector2], [Params], [Table] and the [Game]
    namespace of [game.cpp], and the properties of the specification
    that were checked against it.

    The C++ type [float] is kept abstract: every definition is written
    over a type [float] that comes with the operations the source uses
    ([+ - * /], unary minus, [sqrt], [abs], the comparisons and decimal
    literals), see [FloatOps].  Two interpretations are given:
    - [binary32]: IEEE 754 single precision, through the Standard
      Library's [SpecFloat] with [prec = 24] and [emax = 128]; it
      evaluates, and is what the program computes;
    - [R]: the real numbers, that is the same program with exact
      arithmetic.
    Properties of the control flow are proved for every interpretation;
    the conservation of the squared speeds needs algebra and is proved
    over [R]; the clamp of the charge progress is proved over [R] and
    over [binary32]; the counterexamples are evaluated in [binary32].

    One place of the source has no meaning in the language:
    [recalculateVelocities] reads [dir] through a reference to a
    temporary that is destroyed before the reads.  What those reads
    find is a parameter of the embedding as well, see [DeadReads]:
    every general theorem holds whatever they find, and where a
    statement depends on it, it says so. *)

From Stdlib Require Import ZArith QArith Reals Lra Lia List Bool.
From Stdlib Require Import Floats.SpecFloat.
From stdpp Require Import base decidable option list gmap.

(** ** The arithmetic of [float] *)

Class FloatOps (float : Type) := {
  fadd : float -> float -> float;
  fsub : float -> float -> float;
  fmul : float -> float -> float;
  fdiv : float -> float -> float;
  fneg : float -> float;
  fsqrt : float -> float;
  fabs : float -> float;
  (** [None] when the operands are unordered (a NaN is involved). *)
  fcompare : float -> float -> option comparison;
  (** the value of a decimal literal such as [0.01f] *)
  flit : Q -> float
}.

Declare Scope float_scope.
Delimit Scope float_scope with fl.

Section Comparisons.
Context {float : Type} {FO : FloatOps float}.

(** The four C++ relational operators, derived from the one
    comparison: each is false on unordered operands. *)
Definition fltb (a b : float) : bool :=
  match fcompare a b with Some Lt => true | _ => false end.
Definition fleb (a b : float) : bool :=
  match fcompare a b with Some (Lt | Eq) => true | _ => false end.
Definition fgtb (a b : float) : bool :=
  match fcompare a b with Some Gt => true | _ => false end.
Definition fgeb (a b : float) : bool :=
  match fcompare a b with Some (Gt | Eq) => true | _ => false end.

(** [std::min(a, b)]: [(b < a) ? b : a]. *)
Definition fmin (a b : float) : float := if fltb b a then b else a.
End Comparisons.

Notation "a + b" := (fadd a b) : float_scope.
Notation "a - b" := (fsub a b) : float_scope.
Notation "a * b" := (fmul a b) : float_scope.
Notation "a / b" := (fdiv a b) : float_scope.
Notation "- a" := (fneg a) : float_scope.
Notation "a <? b" := (fltb a b) : float_scope.
Notation "a <=? b" := (fleb a b) : float_scope.
Notation "a >? b" := (fgtb a b) : float_scope.
Notation "a >=? b" := (fgeb a b) : float_scope.

(** *** Exact arithmetic *)

Definition Rcmp (a b : R) : comparison :=
  match total_order_T a b with
  | inleft (left _) => Lt
  | inleft (right _) => Eq
  | inright _ => Gt
  end.

#[export] Instance real_ops : FloatOps R := {|
  fadd := Rplus; fsub := Rminus; fmul := Rmult; fdiv := Rdiv;
  fneg := Ropp; fsqrt := sqrt; fabs := Rabs;
  fcompare := fun a b => Some (Rcmp a b);
  flit := Q2R
|}.

(** *** IEEE 754 single precision *)

Definition binary32 : Type := spec_float.

Definition b32_of_Z (z : Z) : binary32 := binary_normalize 24 128 z 0 false.

(** A decimal literal [n/d] is the correctly rounded quotient of [n] by
    [d]; both are below [2^24] for every literal of the program, hence
    exact, and the quotient is the float nearest to the literal. *)
Definition b32_lit (q : Q) : binary32 :=
  SFdiv 24 128 (b32_of_Z (Qnum q)) (b32_of_Z (Zpos (Qden q))).

#[export] Instance binary32_ops : FloatOps binary32 := {|
  fadd := SFadd 24 128; fsub := SFsub 24 128;
  fmul := SFmul 24 128; fdiv := SFdiv 24 128;
  fneg := SFopp; fsqrt := SFsqrt 24 128; fabs := SFabs;
  fcompare := SFcompare;
  flit := b32_lit
|}.

(** ** The program *)

Section Billiards.
Context {float : Type} {FO : FloatOps float}.

Local Open Scope float_scope.

(** *** Basic Vector2 class *)

Record Vector2 := mkVector2 { x : float; y : float }.

(** [Vector2()] *)
Definition Vector2_zero : Vector2 := mkVector2 (flit 0) (flit 0).

#[export] Instance Vector2_inhabited : Inhabited Vector2 :=
  populate Vector2_zero.

(** [operator - (const Vector2&)] *)
Definition Vector2_sub (a another : Vector2) : Vector2 :=
  mkVector2 (x a - x another) (y a - y another).

(** [operator + (const Vector2&)] *)
Definition Vector2_add (a another : Vector2) : Vector2 :=
  mkVector2 (x a + x another) (y a + y another).

(** [float operator * (const Vector2&)]: the dot product *)
Definition Vector2_dot (a another : Vector2) : float :=
  x a * x another + y a * y another.

(** [operator -= (float)] *)
Definition Vector2_sub_assign (a : Vector2) (scale : float) : Vector2 :=
  mkVector2 (x a - scale) (y a - scale).

(** [operator *= (float)] *)
Definition Vector2_mul_assign (a : Vector2) (scale : float) : Vector2 :=
  mkVector2 (x a * scale) (y a * scale).

(** [Vector2 operator * (float)] *)
Definition Vector2_scale (a : Vector2) (scale : float) : Vector2 :=
  mkVector2 (x a * scale) (y a * scale).

(** [Vector2 operator * (float scale, const Vector2& vec)] *)
Definition Vector2_scale_left (scale : float) (vec : Vector2) : Vector2 :=
  Vector2_scale vec scale.

Definition Vector2_norm (a : Vector2) : float := x a * x a + y a * y a.

Definition Vector2_length (a : Vector2) : float := fsqrt (Vector2_norm a).

(** [normolize()]: divides by the length, whatever it is. *)
Definition Vector2_normolize (a : Vector2) : Vector2 :=
  let len := Vector2_length a in
  mkVector2 (x a / len) (y a / len).

(** *** game parameters *)

Definition targetFPS : Z := 60.
Definition accurance : float := flit (1 # 100).

Definition width : float := flit 15.
Definition height : float := flit 8.
Definition pocketRadius : float := flit (4 # 10).

Definition pocketsPositions : list Vector2 :=
  [ mkVector2 (- flit (5 # 10) * width) (- flit (5 # 10) * height);
    mkVector2 (flit 0) (- flit (5 # 10) * height);
    mkVector2 (flit (5 # 10) * width) (- flit (5 # 10) * height);
    mkVector2 (- flit (5 # 10) * width) (flit (5 # 10) * height);
    mkVector2 (flit 0) (flit (5 # 10) * height);
    mkVector2 (flit (5 # 10) * width) (flit (5 # 10) * height) ].

Definition ballsPositions : list Vector2 :=
  [ (* player ball *)
    mkVector2 (- flit (3 # 10) * width) (flit 0);
    (* other balls *)
    mkVector2 (flit (2 # 10) * width) (flit 0);
    mkVector2 (flit (25 # 100) * width) (flit (5 # 100) * height);
    mkVector2 (flit (25 # 100) * width) (- flit (5 # 100) * height);
    mkVector2 (flit (3 # 10) * width) (flit (1 # 10) * height);
    mkVector2 (flit (3 # 10) * width) (flit 0);
    mkVector2 (flit (3 # 10) * width) (- flit (1 # 10) * height) ].

Definition radius : float := flit (3 # 10).
Definition chargeTime : float := flit 1.

(** *** Table logic *)

(** Modelled from the spec: the scene collaborator ([Scene::Mesh],
    [createPocketMesh], [createBallMesh], [placeMesh], [destroyMesh]
    of framework/scene.hpp).  A mesh is what the program tells the
    scene about it: the radius it was created with and the place it
    was last put at ([z] is always [0.f]).  A handle is [None] when
    it is the null pointer. *)
Record Mesh := mkMesh { meshRadius : float; meshPlace : Vector2 }.

(** Modelled from the spec: [Scene::createPocketMesh(radius)], a new
    mesh, not placed yet. *)
Definition createPocketMesh (r : float) : Mesh := mkMesh r Vector2_zero.

(** Modelled from the spec: [Scene::createBallMesh(radius)]. *)
Definition createBallMesh (r : float) : Mesh := mkMesh r Vector2_zero.

(** Modelled from the spec: [Scene::placeMesh(handle, x, y, 0.f)]; it
    leaves a null handle null. *)
Definition placeMesh (m : option Mesh) (px py : float) : option Mesh :=
  (fun m => mkMesh (meshRadius m) (mkVector2 px py)) <$> m.

Record Table := mkTable {
  pockets : list (option Mesh);
  balls : list (option Mesh)
}.

(** [Table()]: both arrays value-initialised to null handles. *)
Definition Table_new : Table := mkTable (replicate 6 None) (replicate 7 None).

Definition is_null (m : option Mesh) : bool :=
  match m with None => true | Some _ => false end.

(** [Table::init]: [None] is the failed assertion on a handle that
    is already set. *)
Definition Table_init (t : Table) : option Table :=
  if forallb is_null (pockets t) && forallb is_null (balls t) then
    Some (mkTable
      ((fun p => placeMesh (Some (createPocketMesh pocketRadius)) (x p) (y p))
         <$> pocketsPositions)
      ((fun p => placeMesh (Some (createBallMesh radius)) (x p) (y p))
         <$> ballsPositions))
  else None.

Definition Table_deinit (t : Table) : Table :=
  mkTable (replicate 6 None) (replicate 7 None).

Definition Table_getBalls (t : Table) : list (option Mesh) := balls t.

(** *** game public interface *)

(** The variables of namespace [Game]. *)
Record Game := mkGame {
  table : Table;
  isChargingShot : bool;
  shotChargeProgress : float;
  ballPositions : list Vector2;
  ballVelocities : list Vector2
}.

(** The static initialisers. *)
Definition Game_new : Game :=
  mkGame Table_new false (flit 0)
         (replicate 7 Vector2_zero) (replicate 7 Vector2_zero).

Definition infinity : float := flit 2 * (height + width).
Definition impulse : float := flit 6.
Definition friction : float := flit (3 # 100).

Definition set_table (t : Table) (g : Game) : Game :=
  mkGame t (isChargingShot g) (shotChargeProgress g)
         (ballPositions g) (ballVelocities g).
Definition set_ballPositions (p : list Vector2) (g : Game) : Game :=
  mkGame (table g) (isChargingShot g) (shotChargeProgress g)
         p (ballVelocities g).
Definition set_ballVelocities (v : list Vector2) (g : Game) : Game :=
  mkGame (table g) (isChargingShot g) (shotChargeProgress g)
         (ballPositions g) v.

(** [Scene::placeMesh(balls[i], ballPositions[i].x, ballPositions[i].y, 0.f)] *)
Definition placeBall (i : nat) (g : Game) : Game :=
  let p := ballPositions g !!! i in
  set_table (mkTable (pockets (table g))
               (<[i := placeMesh (balls (table g) !!! i) (x p) (y p)]>
                  (balls (table g)))) g.

(** [Game::init]; the target FPS and the background only concern the
    engine and the renderer. *)
Definition init (g : Game) : option Game :=
  t ← Table_init (table g);
  Some (mkGame t (isChargingShot g) (shotChargeProgress g)
               ballsPositions (replicate 7 Vector2_zero)).

Definition deinit (g : Game) : Game := set_table (Table_deinit (table g)) g.

(** [findClosestBall]: the loop body for candidate [i], on the pair
    [(index, distance)] of the best target so far. *)
Definition findClosestBall_step (g : Game) (ballEndPosition : Vector2)
    (subject : nat) (acc : nat * float) (i : nat) : nat * float :=
  if bool_decide (i = subject) then acc
  else if Vector2_length (Vector2_sub ballEndPosition (ballPositions g !!! i))
            <? flit 2 * radius then
    let curr_distance :=
      Vector2_length (Vector2_sub (ballPositions g !!! subject)
                                  (ballPositions g !!! i)) in
    if curr_distance <? snd acc then (i, curr_distance) else acc
  else acc.

Definition findClosestBall (g : Game) (ballEndPosition : Vector2)
    (subject : nat) : nat :=
  fst (foldl (findClosestBall_step g ballEndPosition subject)
             (subject, infinity)
             (seq 0 (length (ballPositions g)))).

(** The reads of a destroyed temporary.  [recalculateVelocities]
    declares
    [const auto& dir = (ballPositions[target] - ballPositions[subject]).normolize();]
    and [normolize()] returns a reference to the object it is called
    on, here the temporary of the subtraction.  The temporary is
    destroyed at the end of that declaration, so every later use of
    [dir] reads a dead object, and the language gives that read no
    value: what it finds depends on the build.  It is therefore a
    parameter: [deadRead line g subject target] is the vector that the
    use of [dir] at [line] of game.cpp finds, in the call
    [recalculateVelocities(subject, target)] from the state [g]. *)
Class DeadReads := deadRead : nat -> Game -> nat -> nat -> Vector2.

Context {DR : DeadReads}.

(** [recalculateVelocities]: each use of [dir] is a read of the dead
    temporary, at its line; the two writes are lines 279 and 280. *)
Definition recalculateVelocities (subject target : nat) (g : Game) : Game :=
  let dir (line : nat) := deadRead line g subject target in
  let tan := mkVector2 (y (dir 271%nat)) (x (dir 271%nat)) in
  let dirSubjectVel := Vector2_dot (ballVelocities g !!! subject) (dir 273%nat) in
  let dirTargetVel := Vector2_dot (ballVelocities g !!! target) (dir 274%nat) in
  let tanSubjectVel :=
    Vector2_sub (ballVelocities g !!! subject)
                (Vector2_scale (dir 276%nat) dirSubjectVel) in
  let tanTargetVel :=
    Vector2_sub (ballVelocities g !!! target)
                (Vector2_scale (dir 277%nat) dirTargetVel) in
  set_ballVelocities
    (<[target := Vector2_add tanTargetVel
                             (Vector2_scale (dir 280%nat) dirSubjectVel)]>
       (<[subject := Vector2_add tanSubjectVel
                                 (Vector2_scale (dir 279%nat) dirTargetVel)]>
          (ballVelocities g))) g.

Definition calculateTimeConflict (distance velocityModule : float) : float :=
  (distance - flit 2 * radius) / velocityModule.

Definition inPocket (ballEndPos : Vector2) : bool :=
  existsb (fun pocketPos =>
             Vector2_length (Vector2_sub ballEndPos pocketPos)
               <=? pocketRadius + radius / flit 4)
          pocketsPositions.

(** [reduceVelocities]: the loop body, on one velocity. *)
Definition reduceVelocity (dt : float) (velocity : Vector2) : Vector2 :=
  if Vector2_length velocity <? accurance then velocity
  else
    let isVxPositive := x velocity >=? flit 0 in
    let isVyPositive := y velocity >=? flit 0 in
    let vx := x velocity - (if isVxPositive then friction * dt * flit (981 # 100)
                            else - friction * dt * flit (981 # 100)) in
    let vy := y velocity - (if isVyPositive then friction * dt * flit (981 # 100)
                            else - friction * dt * flit (981 # 100)) in
    let vx := if (vx <? flit 0) && isVxPositive
                 || (vx >? flit 0) && negb isVxPositive
              then flit 0 else vx in
    let vy := if (vy <? flit 0) && isVyPositive
                 || (vy >? flit 0) && negb isVyPositive
              then flit 0 else vy in
    mkVector2 vx vy.

Definition reduceVelocities (dt : float) (g : Game) : Game :=
  set_ballVelocities (reduceVelocity dt <$> ballVelocities g) g.

(** [isBorderCollesion]: the flag it returns, and the game after the
    flips of [ballVelocities[i]].  [abs] is the [fabs] of the
    arithmetic; the call in the source is unqualified, so which [abs]
    it is depends on what the headers of the build declare. *)
Definition isBorderCollesion (ballPos : Vector2) (i : nat) (g : Game)
    : bool * Game :=
  let hitX := fabs (fabs (x ballPos) - width / flit 2) <=? radius + accurance in
  let g1 :=
    if hitX then
      set_ballVelocities
        (<[i := mkVector2 (- x (ballVelocities g !!! i))
                          (y (ballVelocities g !!! i))]> (ballVelocities g)) g
    else g in
  let hitY := fabs (fabs (y ballPos) - height / flit 2) <=? radius + accurance in
  let g2 :=
    if hitY then
      set_ballVelocities
        (<[i := mkVector2 (x (ballVelocities g1 !!! i))
                          (- y (ballVelocities g1 !!! i))]> (ballVelocities g1)) g1
    else g1 in
  (hitX || hitY, g2).

(** [isFreeze]: the loop over [ballVelocities]. *)
Fixpoint isFreeze_loop (velocities : list Vector2) : bool :=
  match velocities with
  | [] => true
  | velocity :: rest =>
      if Vector2_length velocity <? accurance then false
      else isFreeze_loop rest
  end.

Definition isFreeze (g : Game) : bool := isFreeze_loop (ballVelocities g).

(** What one turn of the loop of [physicLoop] does: it goes on with
    the next ball ([continue] or the end of the body), leaves
    [physicLoop] ([return]), or the process stops on a failed
    assertion. *)
Inductive Step :=
| Next (g : Game) (undoneBalls : gset nat)
| Return (g : Game)
| Abort.

(** The body of the loop of [physicLoop] for ball [i]. *)
Definition ballStep (dt : float) (i : nat) (g : Game) (undoneBalls : gset nat)
    : Step :=
  if (Vector2_length (ballVelocities g !!! i) <=? accurance)
     || bool_decide (i ∈ undoneBalls) then Next g undoneBalls
  else
    let ballEndPos :=
      mkVector2 (x (ballPositions g !!! i) + x (ballVelocities g !!! i) * dt)
                (y (ballPositions g !!! i) + y (ballVelocities g !!! i) * dt) in
    if inPocket ballEndPos then
      if bool_decide (i = 0%nat) then
        match init (deinit g) with
        | Some g' => Return g'
        | None => Abort
        end
      else
        let g := set_ballPositions
                   (<[i := mkVector2 infinity infinity]> (ballPositions g)) g in
        let g := set_ballVelocities
                   (<[i := mkVector2 (flit 0) (flit 0)]> (ballVelocities g)) g in
        Next (placeBall i g) undoneBalls
    else
      let (borderCollesion, g) := isBorderCollesion ballEndPos i g in
      if borderCollesion then Next g undoneBalls
      else
        let j := findClosestBall g ballEndPos i in
        if bool_decide (j = i) then
          let g := set_ballPositions (<[i := ballEndPos]> (ballPositions g)) g in
          Next (placeBall i g) undoneBalls
        else
          (* calc approximated [dt << 1] subject position when conflict *)
          let distance :=
            Vector2_length (Vector2_sub (ballPositions g !!! i)
                                        (ballPositions g !!! j)) in
          let dtau :=
            calculateTimeConflict distance
              (Vector2_length (ballVelocities g !!! i)) in
          let conflictSubjectPos :=
            mkVector2
              (x (ballPositions g !!! i) + x (ballVelocities g !!! i) * dtau)
              (y (ballPositions g !!! i) + y (ballVelocities g !!! i) * dtau) in
          (* calc new position *)
          let g := recalculateVelocities i j g in
          let g := set_ballPositions
                     (<[i := mkVector2
                          (x conflictSubjectPos
                           + x (ballVelocities g !!! i) * (dt - dtau))
                          (y conflictSubjectPos
                           + y (ballVelocities g !!! i) * (dt - dtau))]>
                        (ballPositions g)) g in
          let g := set_ballPositions
                     (<[j := mkVector2
                          (x (ballPositions g !!! j)
                           + x (ballVelocities g !!! j) * (dt - dtau))
                          (y (ballPositions g !!! j)
                           + y (ballVelocities g !!! j) * (dt - dtau))]>
                        (ballPositions g)) g in
          Next (placeBall j (placeBall i g)) ({[i; j]} ∪ undoneBalls).

(** The loop of [physicLoop] over the balls [todo]. *)
Fixpoint ballLoop (dt : float) (todo : list nat) (g : Game)
    (undoneBalls : gset nat) : Step :=
  match todo with
  | [] => Next g undoneBalls
  | i :: rest =>
      match ballStep dt i g undoneBalls with
      | Next g' undoneBalls' => ballLoop dt rest g' undoneBalls'
      | stop => stop
      end
  end.

Definition physicLoop (dt : float) (g : Game) : option Game :=
  if isFreeze g then Some g
  else
    match ballLoop dt (seq 0 (length (ballVelocities g))) g ∅ with
    | Next g' _ => Some (reduceVelocities dt g')
    | Return g' => Some g'
    | Abort => None
    end.

(** The charging part of [update]:
    [if (isChargingShot) shotChargeProgress = std::min(...)]. *)
Definition chargeShot (dt : float) (g : Game) : Game :=
  if isChargingShot g then
    mkGame (table g) (isChargingShot g)
           (fmin (shotChargeProgress g + dt / chargeTime) (flit 1))
           (ballPositions g) (ballVelocities g)
  else g.

(** [update]; [Scene::updateProgressBar] only concerns the renderer. *)
Definition update (dt : float) (g : Game) : option Game :=
  g ← physicLoop dt g;
  Some (chargeShot dt g).

Definition mouseButtonPressed (px py : float) (g : Game) : Game :=
  mkGame (table g) true (shotChargeProgress g)
         (ballPositions g) (ballVelocities g).

Definition mouseButtonReleased (px py : float) (g : Game) : Game :=
  (* New shot can't be done while all balls are in motion; *)
  let g :=
    if Vector2_length (ballVelocities g !!! 0%nat) <? flit (1 # 100) then
      let v := mkVector2 (px - x (ballPositions g !!! 0%nat))
                         (py - y (ballPositions g !!! 0%nat)) in
      let v := Vector2_normolize v in
      let v := Vector2_mul_assign v (impulse * shotChargeProgress g) in
      set_ballVelocities (<[0%nat := v]> (ballVelocities g)) g
    else g in
  mkGame (table g) false (flit 0) (ballPositions g) (ballVelocities g).

(** The calls the engine makes. *)
Inductive Event :=
| Update (dt : float)
| MouseButtonPressed (px py : float)
| MouseButtonReleased (px py : float).

Definition handle (e : Event) (g : Game) : option Game :=
  match e with
  | Update dt => update dt g
  | MouseButtonPressed px py => Some (mouseButtonPressed px py g)
  | MouseButtonReleased px py => Some (mouseButtonReleased px py g)
  end.

Fixpoint run (es : list Event) (g : Game) : option Game :=
  match es with
  | [] => Some g
  | e :: rest => g' ← handle e g; run rest g'
  end.

(** *** Vocabulary of the properties *)

(** The arrays of namespace [Game] are [std::array< Vector2, 7 >]. *)
Definition wf (g : Game) : Prop :=
  length (ballPositions g) = 7%nat /\ length (ballVelocities g) = 7%nat.

(** The rack as [init] leaves it on a fresh program. *)
Definition rack : Game :=
  match init Game_new with Some g => g | None => Game_new end.

(** A velocity below the accuracy, as [isFreeze], [reduceVelocities]
    and [mouseButtonReleased] test it. *)
Definition slow (velocity : Vector2) : bool :=
  Vector2_length velocity <? accurance.

(** The candidate end position of ball [i] for a tick of [dt]. *)
Definition ballEndPos (dt : float) (i : nat) (g : Game) : Vector2 :=
  mkVector2 (x (ballPositions g !!! i) + x (ballVelocities g !!! i) * dt)
            (y (ballPositions g !!! i) + y (ballVelocities g !!! i) * dt).

(** Ball [i] gets past the first test of the loop body. *)
Definition processed (i : nat) (g : Game) (undoneBalls : gset nat) : bool :=
  negb ((Vector2_length (ballVelocities g !!! i) <=? accurance)
        || bool_decide (i ∈ undoneBalls)).

(** The two tests of [isBorderCollesion]. *)
Definition hitsBorderX (ballPos : Vector2) : bool :=
  fabs (fabs (x ballPos) - width / flit 2) <=? radius + accurance.
Definition hitsBorderY (ballPos : Vector2) : bool :=
  fabs (fabs (y ballPos) - height / flit 2) <=? radius + accurance.

(** The exchange of the normal components as the specification words
    it: the velocity [vi] keeps its remainder [vi - n (vi . n)] and
    takes the normal component [n (vj . n)] of the other ball. *)
Definition exchangeNormal (n vi vj : Vector2) : Vector2 :=
  Vector2_add (Vector2_sub vi (Vector2_scale n (Vector2_dot vi n)))
              (Vector2_scale n (Vector2_dot vj n)).

(** In the call [recalculateVelocities(subject, target)] from [g],
    every use of [dir] finds what [normolize()] left in the temporary:
    the normalised vector from the subject to the target. *)
Definition liveReads (subject target : nat) (g : Game) : Prop :=
  forall line,
    deadRead line g subject target
    = Vector2_normolize (Vector2_sub (ballPositions g !!! target)
                                     (ballPositions g !!! subject)).

(** The launch velocity of [mouseButtonReleased] for a click at
    [(px, py)]: [normolize] of the direction from the cue ball, scaled
    by [impulse * shotChargeProgress]. *)
Definition launchVelocity (px py : float) (g : Game) : Vector2 :=
  Vector2_scale
    (Vector2_normolize (Vector2_sub (mkVector2 px py) (ballPositions g !!! 0%nat)))
    (impulse * shotChargeProgress g).

(** Ball [k] is pocketed-out: parked at the sentinel, at rest. *)
Definition pocketedOut (k : nat) (g : Game) : Prop :=
  ballPositions g !! k = Some (mkVector2 infinity infinity)
  /\ ballVelocities g !! k = Some Vector2_zero.

(** [ballPos] is closer than two radii to the sentinel position, the
    test [findClosestBall] makes against a pocketed-out ball. *)
Definition nearSentinel (ballPos : Vector2) : bool :=
  Vector2_length (Vector2_sub ballPos (mkVector2 infinity infinity))
    <? flit 2 * radius.

(** No ball that the loop of [physicLoop] processes over [todo] has
    its candidate end position near the sentinel. *)
Fixpoint awayFromSentinel (dt : float) (todo : list nat) (g : Game)
    (undoneBalls : gset nat) : bool :=
  match todo with
  | [] => true
  | i :: rest =>
      (if processed i g undoneBalls then negb (nearSentinel (ballEndPos dt i g))
       else true)
      && match ballStep dt i g undoneBalls with
         | Next g' undoneBalls' => awayFromSentinel dt rest g' undoneBalls'
         | _ => true
         end
  end.

(** The tick of [dt] resets the rack: the physics step runs, the cue
    ball is processed and its candidate end position is in a pocket. *)
Definition cuePocketed (dt : float) (g : Game) : bool :=
  negb (isFreeze g) && processed 0 g ∅ && inPocket (ballEndPos dt 0 g).

(** Along the calls [es] from [g], no tick resets the rack and no
    processed ball has its candidate end position near the sentinel. *)
Fixpoint quietRun (es : list Event) (g : Game) : bool :=
  match es with
  | [] => true
  | e :: rest =>
      match e with
      | Update dt =>
          negb (cuePocketed dt g)
          && awayFromSentinel dt (seq 0 (length (ballVelocities g))) g ∅
      | _ => true
      end
      && match handle e g with
         | Some g' => quietRun rest g'
         | None => true
         end
  end.

(** The charge progress is in [[0, 1]], as the program compares. *)
Definition inUnit (progress : float) : Prop :=
  (flit 0 <=? progress) = true /\ (progress <=? flit 1) = true.

(** The call is not a tick of negative (or not-a-number) duration. *)
Definition nonnegTick (e : Event) : Prop :=
  match e with Update dt => (dt >=? flit 0) = true | _ => True end.

(** What the clamp of [update] needs of the arithmetic: [0.f] is in
    [[0, 1]], and so is [min(progress + dt / chargeTime, 1.f)] when
    [progress] is and [dt] is not negative. *)
Definition clampLaw : Prop :=
  inUnit (flit 0)
  /\ forall progress dt : float,
       inUnit progress -> (dt >=? flit 0) = true ->
       inUnit (fmin (progress + dt / chargeTime) (flit 1)).

(** *** Games to evaluate the program on *)

(** Two ways the reads of [dir] can come out: the storage of the
    temporary is still intact and every read finds the normalised
    vector; or the reads find zeros. *)
Definition intactReads : DeadReads :=
  fun _ g subject target =>
    Vector2_normolize (Vector2_sub (ballPositions g !!! target)
                                   (ballPositions g !!! subject)).
Definition zeroedReads : DeadReads := fun _ _ _ _ => Vector2_zero.

Definition Vector2_lit (a b : Q) : Vector2 := mkVector2 (flit a) (flit b).

(** [g] with ball [i] put at [p] with velocity [v]. *)
Definition withBall (i : nat) (p v : Vector2) (g : Game) : Game :=
  set_ballVelocities (<[i := v]> (ballVelocities g))
    (set_ballPositions (<[i := p]> (ballPositions g)) g).

(** The rack while the button is held, fully charged. *)
Definition chargedRack : Game :=
  mkGame (table rack) true (flit 1) (ballPositions rack) (ballVelocities rack).

(** The cue ball at rest on the top right pocket. *)
Definition cueAtPocket : Game := withBall 0 (Vector2_lit (75 # 10) 4) Vector2_zero rack.

(** The cue ball rolling into the top right pocket, the others at rest. *)
Definition cueIntoPocket : Game :=
  withBall 0 (Vector2_lit (72 # 10) (39 # 10)) (Vector2_lit 1 0) rack.

(** The same with all seven balls rolling. *)
Definition allRolling : Game :=
  set_ballVelocities (replicate 7 (Vector2_lit 1 0)) cueIntoPocket.

(** Ball 1 pocketed-out. *)
Definition pocketedBall1 : Game :=
  withBall 1 (mkVector2 infinity infinity) Vector2_zero rack.

(** Ball 1 pocketed-out and the cue ball shot up and to the right. *)
Definition strayCue : Game :=
  withBall 0 (ballPositions rack !!! 0%nat) (Vector2_lit (4016 # 1000) (368 # 100))
           pocketedBall1.

(** Ball 1 pocketed-out and the cue ball rolling to the right. *)
Definition rollingCue : Game :=
  withBall 0 (ballPositions rack !!! 0%nat) (Vector2_lit 1 0) pocketedBall1.

(** The cue ball about to hit the right border, ball 1 right behind it. *)
Definition borderPair : Game :=
  withBall 1 (Vector2_lit (645 # 100) 0) (Vector2_lit 6 0)
    (withBall 0 (Vector2_lit (71 # 10) 0) (Vector2_lit 6 0) rack).

(** The cue ball in the middle of the table, rolling to the right
    and a little up; ball 1 at rest up and to the right of it, two
    radii away, so that the line between them is oblique to the
    velocity of the cue ball. *)
Definition obliquePair : Game :=
  withBall 1 (Vector2_lit (36 # 100) (48 # 100)) Vector2_zero
    (withBall 0 (Vector2_lit 0 0) (Vector2_lit 5 1) rack).

(** *** More vocabulary *)

(** Every ball but [i] is below the accuracy. *)
Definition othersSlow (i : nat) (g : Game) : Prop :=
  forall j, j <> i -> (j < length (ballVelocities g))%nat ->
    slow (ballVelocities g !!! j) = true.

(** The handle of ball [k] is set. *)
Definition handleAt (k : nat) (g : Game) : Prop :=
  exists m, balls (table g) !! k = Some (Some m).

(** The scene shows ball [k] where [ballPositions[k]] has it. *)
Definition mirroredAt (k : nat) (g : Game) : Prop :=
  forall p, ballPositions g !! k = Some p ->
    exists r, balls (table g) !! k = Some (Some (mkMesh r p)).

(** The scene shows every ball where [ballPositions] has it. *)
Definition mirrored (g : Game) : Prop :=
  forall k p, ballPositions g !! k = Some p ->
    exists r, balls (table g) !! k = Some (Some (mkMesh r p)).

(** The first test of [findClosestBall] on candidate [i]: it is closer
    than two radii to the candidate end position of the subject. *)
Definition closeTo (g : Game) (ballEndPosition : Vector2) (i : nat) : bool :=
  Vector2_length (Vector2_sub ballEndPosition (ballPositions g !!! i))
    <? flit 2 * radius.

(** [curr_distance] of [findClosestBall]: from the subject, where it
    is before the tick, to candidate [i]. *)
Definition separation (g : Game) (subject i : nat) : float :=
  Vector2_length (Vector2_sub (ballPositions g !!! subject)
                              (ballPositions g !!! i)).

(** Ball 1 rolling into the top right pocket, the others at rest. *)
Definition ballIntoPocket : Game :=
  withBall 1 (Vector2_lit (72 # 10) (39 # 10)) (Vector2_lit 1 0) rack.

(** The cue ball about to hit the right border, the others at rest. *)
Definition cueAtBorder : Game :=
  withBall 0 (Vector2_lit (71 # 10) 0) (Vector2_lit 6 0) rack.

End Billiards.

Arguments Vector2 float : clear implicits.
Arguments Mesh float : clear implicits.
Arguments Table float : clear implicits.
Arguments Game float : clear implicits.
Arguments Step float : clear implicits.
Arguments Event float : clear implicits.
Arguments DeadReads float : clear implicits.


(** A binary32 number that is not negative: a zero of either sign, a
    positive finite number or plus infinity. *)
Definition b32_nonneg (a : binary32) : Prop :=
  match a with
  | S754_zero _ => True
  | S754_infinity s | S754_finite s _ _ => s = false
  | S754_nan => False
  end.

(** A frame at the target rate, and a long one. *)
Definition tick : binary32 := flit (1 # 60).
Definition longTick : binary32 := flit (125 # 10).

(** What the friction of [reduceVelocities] makes of one component [c]
    with the step [k = friction * dt * 9.81]: [k] towards zero, and
    zero when that passes zero. *)
Definition rub (k c : R) : R :=
  if Rle_dec 0 c then Rmax (c - k) 0 else Rmin (c + k) 0.

(** The time a run of ticks takes. *)
Definition elapsed (dts : list R) : R := foldr Rplus 0%R dts.

(** The loop of [findClosestBall] before candidate [a]: [acc] is the
    subject with the distance [infinity], and no close candidate below
    [a] is nearer than [infinity]; or it is the first of the nearest
    close candidates below [a], with its distance. *)
Definition closestSoFar (g : Game R) (ballEndPosition : Vector2 R)
    (subject a : nat) (acc : nat * R) : Prop :=
  (acc.1 = subject /\ acc.2 = 46%R
   /\ forall i, (i < a)%nat -> i <> subject ->
        closeTo g ballEndPosition i = true ->
        (46 <= separation g subject i)%R)
  \/ (acc.1 <> subject /\ (acc.1 < a)%nat
      /\ closeTo g ballEndPosition acc.1 = true
      /\ acc.2 = separation g subject acc.1
      /\ (acc.2 < 46)%R
      /\ forall i, (i < a)%nat -> i <> subject ->
           closeTo g ballEndPosition i = true ->
           (acc.2 <= separation g subject i)%R
           /\ (separation g subject i = acc.2 -> (acc.1 <= i)%nat)).

(** A zero of either sign or a NaN: what [x - x] can be in binary32. *)
Definition zeroOrNan (a : binary32) : Prop :=
  match a with S754_zero _ | S754_nan => True | _ => False end.

(** ** Properties that hold in every arithmetic *)

Section Properties.
Context {float : Type} {FO : FloatOps float} {DR : DeadReads float}.

Local Open Scope float_scope.

Implicit Types (g : Game float) (v : Vector2 float) (dt : float).

(** *** The comparisons *)

Lemma fltb_fleb (a b : float) : (a <? b) = true -> (a <=? b) = true.
Proof. unfold fltb, fleb. by destruct (fcompare a b) as [[]|]. Qed.

Lemma fltb_fgeb (a b : float) : (a >=? b) = true -> (a <? b) = false.
Proof. unfold fltb, fgeb. by destruct (fcompare a b) as [[]|]. Qed.

(** *** The frame of the helpers *)

Lemma isBorderCollesion_positions ballPos i g :
  ballPositions (isBorderCollesion ballPos i g).2 = ballPositions g.
Proof. unfold isBorderCollesion. simpl. by repeat case_match. Qed.

Lemma isBorderCollesion_flag ballPos i g :
  (isBorderCollesion ballPos i g).1 = hitsBorderX ballPos || hitsBorderY ballPos.
Proof. reflexivity. Qed.

Lemma isBorderCollesion_miss ballPos i g :
  (isBorderCollesion ballPos i g).1 = false ->
  (isBorderCollesion ballPos i g).2 = g.
Proof.
  unfold isBorderCollesion. simpl. intros [-> ->]%orb_false_elim. done.
Qed.

(** The reset of the rack never trips the assertion of [Table::init]:
    [deinit] has cleared the handles. *)
Lemma init_deinit g :
  exists t, init (deinit g)
            = Some (mkGame t (isChargingShot g) (shotChargeProgress g)
                           ballsPositions (replicate 7 Vector2_zero)).
Proof. unfold init, deinit, Table_init. simpl. eauto. Qed.

(** *** isFreeze *)

Lemma isFreeze_loop_Forall (vs : list (Vector2 float)) :
  isFreeze_loop vs = true <-> Forall (fun v => slow v = false) vs.
Proof.
  induction vs as [|v vs IH]; simpl.
  - split; [constructor | done].
  - unfold slow at 1. destruct (Vector2_length v <? accurance) eqn:E.
    + split; [done | intros Hall; inversion Hall; congruence].
    + rewrite IH. split; [by constructor | by inversion 1].
Qed.

Lemma isFreeze_loop_Exists (vs : list (Vector2 float)) :
  isFreeze_loop vs = false <-> Exists (fun v => slow v = true) vs.
Proof.
  induction vs as [|v vs IH]; simpl.
  - split; [done | by inversion 1].
  - unfold slow at 1. destruct (Vector2_length v <? accurance) eqn:E.
    + split; [by left | done].
    + rewrite IH. split; [by right | inversion 1; [congruence | done]].
Qed.

(** *** The loop of physicLoop *)

Lemma ballStep_skip dt i g undoneBalls :
  processed i g undoneBalls = false -> ballStep dt i g undoneBalls = Next g undoneBalls.
Proof.
  unfold processed, ballStep. intros Hp%negb_false_iff. by rewrite Hp.
Qed.

Lemma ballLoop_skip dt todo g undoneBalls :
  Forall (fun i => processed i g undoneBalls = false) todo ->
  ballLoop dt todo g undoneBalls = Next g undoneBalls.
Proof.
  induction 1 as [|i todo Hi _ IH]; simpl; [done|].
  by rewrite ballStep_skip.
Qed.

Lemma slow_not_processed i g undoneBalls :
  slow (ballVelocities g !!! i) = true -> processed i g undoneBalls = false.
Proof.
  unfold slow, processed. intros Hs%fltb_fleb. by rewrite Hs.
Qed.

Lemma reduceVelocity_slow dt v : slow v = true -> reduceVelocity dt v = v.
Proof. unfold slow, reduceVelocity. by intros ->. Qed.

Lemma reduceVelocities_slow dt g :
  Forall (fun v => slow v = true) (ballVelocities g) ->
  reduceVelocities dt g = g.
Proof.
  intros Hall. unfold reduceVelocities.
  replace (reduceVelocity dt <$> ballVelocities g) with (ballVelocities g);
    [by destruct g|].
  induction Hall as [|v vs Hv _ IH]; [done|].
  rewrite fmap_cons, reduceVelocity_slow by done. by f_equal.
Qed.

Lemma chargeShot_balls dt g :
  table (chargeShot dt g) = table g
  /\ ballPositions (chargeShot dt g) = ballPositions g
  /\ ballVelocities (chargeShot dt g) = ballVelocities g
  /\ isChargingShot (chargeShot dt g) = isChargingShot g.
Proof. unfold chargeShot. by destruct (isChargingShot g) eqn:E. Qed.

(** C10.  When all seven balls are below the accuracy, [isFreeze]
    answers [false], and [update] still leaves the table, every position
    and every velocity as they are: only the charging proceeds. *)
Theorem update_all_slow dt g :
  length (ballVelocities g) = 7%nat ->
  Forall (fun v => slow v = true) (ballVelocities g) ->
  isFreeze g = false
  /\ physicLoop dt g = Some g
  /\ update dt g = Some (chargeShot dt g)
  /\ table (chargeShot dt g) = table g
  /\ ballPositions (chargeShot dt g) = ballPositions g
  /\ ballVelocities (chargeShot dt g) = ballVelocities g.
Proof.
  intros Hlen Hall.
  assert (Hfr : isFreeze g = false).
  { apply isFreeze_loop_Exists. destruct (ballVelocities g) as [|v vs]; [done|].
    left. by inversion Hall. }
  assert (Hloop : physicLoop dt g = Some g).
  { unfold physicLoop. rewrite Hfr, ballLoop_skip.
    - by rewrite reduceVelocities_slow.
    - apply Forall_forall. intros i Hi%elem_of_seq.
      apply slow_not_processed.
      by apply (Forall_lookup_total_1 _ _ i) in Hall; [|lia]. }
  split; [done|]. split; [done|].
  unfold update. rewrite Hloop. simpl.
  pose proof (chargeShot_balls dt g). tauto.
Qed.

(** *** The charging state is out of reach of the physics step *)

Lemma ballStep_charge dt i g undoneBalls :
  match ballStep dt i g undoneBalls with
  | Next g' _ | Return g' =>
      isChargingShot g' = isChargingShot g
      /\ shotChargeProgress g' = shotChargeProgress g
  | Abort => False
  end.
Proof.
  unfold ballStep.
  destruct (_ || _); [done|].
  destruct (inPocket _).
  - case_bool_decide; [|done].
    by destruct (init_deinit g) as [t ->].
  - destruct (isBorderCollesion _ i g) as [hit g1] eqn:Hb.
    assert (isChargingShot g1 = isChargingShot g
            /\ shotChargeProgress g1 = shotChargeProgress g) as [Hc Hp].
    { revert Hb. unfold isBorderCollesion. intros [= _ <-].
      by repeat case_match. }
    destruct hit; [done|].
    by case_bool_decide.
Qed.

Lemma ballLoop_charge dt todo g undoneBalls :
  match ballLoop dt todo g undoneBalls with
  | Next g' _ | Return g' =>
      isChargingShot g' = isChargingShot g
      /\ shotChargeProgress g' = shotChargeProgress g
  | Abort => False
  end.
Proof.
  revert g undoneBalls. induction todo as [|i todo IH]; intros g u; simpl; [done|].
  pose proof (ballStep_charge dt i g u) as Hs.
  destruct (ballStep dt i g u) as [g1 u1| |]; [|done..].
  specialize (IH g1 u1).
  destruct (ballLoop dt todo g1 u1); [| |done]; intuition congruence.
Qed.

(** [physicLoop] always returns, and leaves the charging state alone. *)
Lemma physicLoop_charge dt g :
  exists g', physicLoop dt g = Some g'
             /\ isChargingShot g' = isChargingShot g
             /\ shotChargeProgress g' = shotChargeProgress g.
Proof.
  unfold physicLoop. destruct (isFreeze g); [by exists g|].
  pose proof (ballLoop_charge dt (seq 0 (length (ballVelocities g))) g ∅) as Hl.
  destruct (ballLoop _ _ _ _) as [g1 u1|g1|]; [| |done].
  - by exists (reduceVelocities dt g1).
  - by exists g1.
Qed.

(** *** The shot controller *)

Lemma mouseButtonReleased_launch px py g :
  wf g ->
  (Vector2_length (ballVelocities g !!! 0%nat) <? flit (1 # 100)) = true ->
  ballVelocities (mouseButtonReleased px py g) !!! 0%nat
  = launchVelocity px py g.
Proof.
  intros [_ Hv] Hslow. unfold mouseButtonReleased. rewrite Hslow. simpl.
  by rewrite list_lookup_total_insert_eq by lia.
Qed.

Lemma mouseButtonReleased_clear px py g :
  isChargingShot (mouseButtonReleased px py g) = false
  /\ shotChargeProgress (mouseButtonReleased px py g) = flit 0
  /\ ballPositions (mouseButtonReleased px py g) = ballPositions g.
Proof. unfold mouseButtonReleased. by destruct (_ <? _). Qed.

(** C4.  On a release at [(px, py)]: when the cue ball is below [0.01]
    its velocity becomes the normalised direction from the cue ball to
    the click, scaled by [impulse * shotChargeProgress] (the progress at
    release); when it is at or above [0.01] (indeed whenever it is not
    below) the velocity stays; either way the charging flag is cleared,
    the progress is [0], and nothing else moves. *)
Theorem mouseButtonReleased_spec px py g :
  wf g ->
  let g' := mouseButtonReleased px py g in
  let v0 := ballVelocities g !!! 0%nat in
  ((Vector2_length v0 <? flit (1 # 100)) = true ->
     ballVelocities g' !!! 0%nat = launchVelocity px py g)
  /\ ((Vector2_length v0 >=? flit (1 # 100)) = true ->
       ballVelocities g' !!! 0%nat = v0)
  /\ ((Vector2_length v0 <? flit (1 # 100)) = false ->
       ballVelocities g' = ballVelocities g)
  /\ isChargingShot g' = false
  /\ shotChargeProgress g' = flit 0
  /\ ballPositions g' = ballPositions g
  /\ (forall i, i <> 0%nat -> ballVelocities g' !!! i = ballVelocities g !!! i).
Proof.
  intros Hwf. cbv zeta.
  split; [by apply mouseButtonReleased_launch|].
  destruct (mouseButtonReleased_clear px py g) as (Hc & Hp & Hpos).
  unfold mouseButtonReleased in *.
  destruct (Vector2_length (ballVelocities g !!! 0%nat) <? flit (1 # 100)) eqn:E;
    simpl in *.
  - split; [by intros ?%fltb_fgeb; congruence|].
    split; [done|].
    repeat split. intros i Hi. by rewrite list_lookup_total_insert_ne.
  - by repeat split.
Qed.

(** *** One turn of the loop *)

(** C3 (as the code has it).  When the physics step runs ([isFreeze]
    answers [false]), the cue ball is processed (it is not at or below
    the accuracy) and its candidate end position passes the pocket
    test, [physicLoop] is the reset [deinit(); init(); return;] and
    nothing else: every position is the one of the parameter template,
    every velocity is the zero vector, no other ball is processed and
    there is no friction; [update] then only goes on with the
    charging. *)
Theorem cue_pocketed_resets_rack dt g :
  isFreeze g = false ->
  (Vector2_length (ballVelocities g !!! 0%nat) <=? accurance) = false ->
  inPocket (ballEndPos dt 0 g) = true ->
  exists g',
    init (deinit g) = Some g'
    /\ physicLoop dt g = Some g'
    /\ update dt g = Some (chargeShot dt g')
    /\ ballPositions g' = ballsPositions
    /\ ballVelocities g' = replicate 7 Vector2_zero
    /\ ballPositions (chargeShot dt g') = ballsPositions
    /\ ballVelocities (chargeShot dt g') = replicate 7 Vector2_zero.
Proof.
  intros Hfr Hv Hp.
  destruct (init_deinit g) as [t Hinit].
  eexists. split; [exact Hinit|].
  assert (Hloop : physicLoop dt g = init (deinit g)).
  { unfold physicLoop. rewrite Hfr.
    assert (exists n, length (ballVelocities g) = S n) as [n ->].
    { unfold isFreeze in Hfr.
      destruct (ballVelocities g); [done | simpl; eauto]. }
    rewrite <- cons_seq. simpl ballLoop.
    unfold ballStep. rewrite Hv. simpl orb.
    rewrite bool_decide_eq_false_2 by set_solver.
    fold (ballEndPos dt 0 g). rewrite Hp. simpl. by rewrite Hinit. }
  rewrite Hloop, Hinit. split; [done|].
  unfold update. rewrite Hloop, Hinit. split; [done|].
  pose proof (chargeShot_balls dt
    (mkGame t (isChargingShot g) (shotChargeProgress g)
            ballsPositions (replicate 7 Vector2_zero))) as (_ & -> & -> & _).
  done.
Qed.

(** C8 (as the code has it).  For a processed ball [i] whose candidate
    end position is not pocketed: the x test of [isBorderCollesion]
    negates [v_i.x], the y test negates [v_i.y] (both may fire), and
    when at least one fires the turn of ball [i] ends there: no
    position is written, no other velocity changes, and the ball is
    not put in the skip set. *)
Theorem border_hit_step dt i g undoneBalls :
  (i < length (ballVelocities g))%nat ->
  processed i g undoneBalls = true ->
  inPocket (ballEndPos dt i g) = false ->
  hitsBorderX (ballEndPos dt i g) || hitsBorderY (ballEndPos dt i g) = true ->
  exists g',
    ballStep dt i g undoneBalls = Next g' undoneBalls
    /\ ballPositions g' = ballPositions g
    /\ ballVelocities g'
       = <[i := mkVector2
                  (if hitsBorderX (ballEndPos dt i g)
                   then - x (ballVelocities g !!! i)
                   else x (ballVelocities g !!! i))
                  (if hitsBorderY (ballEndPos dt i g)
                   then - y (ballVelocities g !!! i)
                   else y (ballVelocities g !!! i))]> (ballVelocities g)
    /\ table g' = table g.
Proof.
  intros Hi Hp%negb_true_iff Hpocket Hhit.
  unfold ballStep. rewrite Hp. fold (ballEndPos dt i g). rewrite Hpocket.
  unfold isBorderCollesion.
  fold (hitsBorderX (ballEndPos dt i g)) (hitsBorderY (ballEndPos dt i g)).
  rewrite Hhit.
  destruct (hitsBorderX _), (hitsBorderY _); try done;
    (eexists; split; [reflexivity|]); simpl; repeat split.
  by rewrite list_lookup_total_insert_eq, list_insert_insert_eq.
Qed.

(** *** The pair collision *)

(** Where the reads of [dir] find the normalised vector, the two
    writes are the exchange of the normal components. *)
Lemma recalculateVelocities_lookup subject target g :
  liveReads subject target g ->
  subject <> target ->
  (subject < length (ballVelocities g))%nat ->
  (target < length (ballVelocities g))%nat ->
  ballVelocities (recalculateVelocities subject target g) !!! subject
  = exchangeNormal
      (Vector2_normolize (Vector2_sub (ballPositions g !!! target)
                                      (ballPositions g !!! subject)))
      (ballVelocities g !!! subject) (ballVelocities g !!! target)
  /\ ballVelocities (recalculateVelocities subject target g) !!! target
     = exchangeNormal
         (Vector2_normolize (Vector2_sub (ballPositions g !!! target)
                                         (ballPositions g !!! subject)))
         (ballVelocities g !!! target) (ballVelocities g !!! subject).
Proof.
  intros Hlive Hne Hs Ht.
  unfold recalculateVelocities. rewrite !Hlive. simpl. split.
  - rewrite list_lookup_total_insert_ne by done.
    by rewrite list_lookup_total_insert_eq.
  - by rewrite list_lookup_total_insert_eq by (by rewrite length_insert).
Qed.

(** Whatever the reads of [dir] find, [recalculateVelocities] moves no
    ball, keeps the table and the charging state, and writes no
    velocity but those of the two balls. *)
Lemma recalculateVelocities_frame subject target g :
  table (recalculateVelocities subject target g) = table g
  /\ isChargingShot (recalculateVelocities subject target g) = isChargingShot g
  /\ shotChargeProgress (recalculateVelocities subject target g)
     = shotChargeProgress g
  /\ ballPositions (recalculateVelocities subject target g) = ballPositions g
  /\ length (ballVelocities (recalculateVelocities subject target g))
     = length (ballVelocities g)
  /\ (forall k, k <> subject -> k <> target ->
        ballVelocities (recalculateVelocities subject target g) !!! k
        = ballVelocities g !!! k).
Proof.
  unfold recalculateVelocities. simpl. rewrite !length_insert.
  repeat split. intros k Hs Ht. by rewrite !list_lookup_total_insert_ne.
Qed.

(** *** Pocketed-out balls *)

(** [findClosestBall] answers the subject itself or a ball that passed
    the distance test against the candidate end position. *)
Lemma findClosestBall_fold_near g ballEndPosition subject l acc :
  acc.1 = subject
  \/ (Vector2_length (Vector2_sub ballEndPosition (ballPositions g !!! acc.1))
       <? flit 2 * radius) = true ->
  (foldl (findClosestBall_step g ballEndPosition subject) acc l).1 = subject
  \/ (Vector2_length
        (Vector2_sub ballEndPosition
           (ballPositions g
              !!! (foldl (findClosestBall_step g ballEndPosition subject) acc l).1))
       <? flit 2 * radius) = true.
Proof.
  revert acc. induction l as [|i l IH]; intros acc Hacc; [exact Hacc|].
  cbn [foldl]. apply IH. unfold findClosestBall_step.
  case_bool_decide; [done|].
  destruct (Vector2_length (Vector2_sub ballEndPosition (ballPositions g !!! i))
            <? flit 2 * radius) eqn:Hnear; [|done].
  destruct (_ <? acc.2); [by right | done].
Qed.

Lemma findClosestBall_near g ballEndPosition subject :
  findClosestBall g ballEndPosition subject = subject
  \/ (Vector2_length
        (Vector2_sub ballEndPosition
           (ballPositions g !!! findClosestBall g ballEndPosition subject))
       <? flit 2 * radius) = true.
Proof. apply findClosestBall_fold_near. by left. Qed.

Section Pocketed.
Variable k : nat.
Hypothesis zero_slow : slow (float := float) Vector2_zero = true.

Lemma pocketedOut_not_processed g undoneBalls :
  pocketedOut k g -> processed k g undoneBalls = false.
Proof.
  intros [_ Hv]. apply slow_not_processed.
  by rewrite (list_lookup_total_correct _ _ _ Hv).
Qed.

Lemma ballStep_pocketedOut dt i g undoneBalls :
  pocketedOut k g ->
  (processed i g undoneBalls = true -> nearSentinel (ballEndPos dt i g) = false) ->
  match ballStep dt i g undoneBalls with
  | Next g' _ => pocketedOut k g'
  | Return g' =>
      ballPositions g' = ballsPositions
      /\ ballVelocities g' = replicate 7 Vector2_zero
  | Abort => False
  end.
Proof.
  intros Hk Haway.
  destruct (processed i g undoneBalls) eqn:Hproc;
    [|by rewrite ballStep_skip].
  assert (Hik : i <> k).
  { intros ->. by rewrite pocketedOut_not_processed in Hproc. }
  specialize (Haway eq_refl).
  destruct Hk as [Hpk Hvk].
  unfold ballStep. apply negb_true_iff in Hproc. rewrite Hproc.
  fold (ballEndPos dt i g).
  destruct (inPocket _).
  { destruct (bool_decide (i = 0%nat)).
    - by destruct (init_deinit g) as [t ->].
    - split; simpl; by rewrite list_lookup_insert_ne. }
  destruct (isBorderCollesion _ i g) as [hit g1] eqn:Hb.
  destruct hit.
  { revert Hb. unfold isBorderCollesion. intros [= _ <-].
    split; repeat case_match; simpl; by rewrite ?list_lookup_insert_ne. }
  assert (g1 = g) as ->.
  { rewrite <- (isBorderCollesion_miss (ballEndPos dt i g) i g);
      by rewrite Hb. }
  destruct (bool_decide_reflect (findClosestBall g (ballEndPos dt i g) i = i))
    as [Hj|Hj].
  { split; simpl; by rewrite ?list_lookup_insert_ne. }
  assert (Hjk : findClosestBall g (ballEndPos dt i g) i <> k).
  { intros Hjk.
    destruct (findClosestBall_near g (ballEndPos dt i g) i) as [?|Hnear];
      [done|].
    rewrite Hjk, (list_lookup_total_correct _ _ _ Hpk) in Hnear.
    unfold nearSentinel in Haway. congruence. }
  unfold recalculateVelocities.
  split; simpl; by rewrite !list_lookup_insert_ne.
Qed.

Lemma ballLoop_pocketedOut dt todo g undoneBalls :
  pocketedOut k g ->
  awayFromSentinel dt todo g undoneBalls = true ->
  match ballLoop dt todo g undoneBalls with
  | Next g' _ => pocketedOut k g'
  | Return g' =>
      ballPositions g' = ballsPositions
      /\ ballVelocities g' = replicate 7 Vector2_zero
  | Abort => False
  end.
Proof.
  revert g undoneBalls.
  induction todo as [|i todo IH]; intros g u Hk Haway; simpl; [done|].
  simpl in Haway. apply andb_true_iff in Haway as [Hi Hrest].
  pose proof (ballStep_pocketedOut dt i g u Hk) as Hstep.
  destruct (ballStep dt i g u) as [g1 u1|g1|].
  - apply IH; [|done]. apply Hstep. intros Hp. rewrite Hp in Hi.
    by apply negb_true_iff.
  - apply Hstep. intros Hp. rewrite Hp in Hi. by apply negb_true_iff.
  - apply Hstep. intros Hp. rewrite Hp in Hi. by apply negb_true_iff.
Qed.

Lemma reduceVelocities_pocketedOut dt g :
  pocketedOut k g -> pocketedOut k (reduceVelocities dt g).
Proof.
  intros [Hp Hv]. split; [done|]. simpl.
  by rewrite list_lookup_fmap, Hv; simpl; rewrite reduceVelocity_slow.
Qed.

Lemma chargeShot_pocketedOut dt g :
  pocketedOut k g -> pocketedOut k (chargeShot dt g).
Proof.
  unfold pocketedOut. by destruct (chargeShot_balls dt g) as (_ & -> & -> & _).
Qed.

(** A pocketed-out ball stays so through a tick in which no processed
    ball has its candidate end position near the sentinel, unless the
    tick resets the rack. *)
Lemma physicLoop_pocketedOut dt g :
  pocketedOut k g ->
  awayFromSentinel dt (seq 0 (length (ballVelocities g))) g ∅ = true ->
  exists g',
    physicLoop dt g = Some g'
    /\ update dt g = Some (chargeShot dt g')
    /\ (pocketedOut k g' /\ pocketedOut k (chargeShot dt g')
        \/ ballPositions g' = ballsPositions
           /\ ballVelocities g' = replicate 7 Vector2_zero).
Proof.
  intros Hk Haway.
  assert (exists g', physicLoop dt g = Some g'
            /\ (pocketedOut k g'
                \/ ballPositions g' = ballsPositions
                   /\ ballVelocities g' = replicate 7 Vector2_zero))
    as (g' & Hloop & Hg').
  { unfold physicLoop. destruct (isFreeze g); [by eauto|].
    pose proof (ballLoop_pocketedOut dt _ g ∅ Hk Haway) as Hl.
    destruct (ballLoop _ _ _ _) as [g1 u1|g1|]; [| |done].
    - eauto using reduceVelocities_pocketedOut.
    - eauto. }
  exists g'. unfold update. rewrite Hloop. split; [done|]. split; [done|].
  destruct Hg' as [?|?]; [left|by right].
  eauto using chargeShot_pocketedOut.
Qed.

(** Only the cue ball makes [physicLoop] return from inside the loop. *)
Lemma ballStep_Return dt i g undoneBalls g' :
  ballStep dt i g undoneBalls = Return g' ->
  i = 0%nat /\ processed i g undoneBalls = true
  /\ inPocket (ballEndPos dt i g) = true.
Proof.
  unfold ballStep, processed. fold (ballEndPos dt i g).
  destruct (_ || _); [done|].
  destruct (inPocket _).
  - by destruct (bool_decide_reflect (i = 0%nat)).
  - destruct (isBorderCollesion _ i g) as [[] g1]; [done|].
    by destruct (bool_decide _).
Qed.

Lemma ballLoop_no_Return dt todo g undoneBalls g' :
  0%nat ∉ todo -> ballLoop dt todo g undoneBalls <> Return g'.
Proof.
  revert g undoneBalls. induction todo as [|i todo IH]; intros g u Hnotin; [done|].
  simpl. destruct (ballStep dt i g u) as [g1 u1|g1|] eqn:Hs; [| |done].
  - apply IH. set_solver.
  - apply ballStep_Return in Hs as [-> _]. set_solver.
Qed.

Lemma ballLoop_seq_no_Return dt n g g' :
  processed 0 g ∅ && inPocket (ballEndPos dt 0 g) = false ->
  ballLoop dt (seq 0 n) g ∅ <> Return g'.
Proof.
  intros Hcue. destruct n as [|n]; [done|].
  rewrite <- cons_seq. simpl.
  destruct (ballStep dt 0 g ∅) as [g1 u1|g1|] eqn:Hs; [| |done].
  - apply ballLoop_no_Return. intros Hin%elem_of_seq. lia.
  - apply ballStep_Return in Hs as (_ & Hp & Hin).
    by rewrite Hp, Hin in Hcue.
Qed.

Lemma update_pocketedOut dt g :
  pocketedOut k g ->
  cuePocketed dt g = false ->
  awayFromSentinel dt (seq 0 (length (ballVelocities g))) g ∅ = true ->
  exists g', update dt g = Some g' /\ pocketedOut k g'.
Proof.
  intros Hk Hcue Haway.
  assert (exists g', physicLoop dt g = Some g' /\ pocketedOut k g')
    as (g' & Hloop & Hg').
  { unfold physicLoop. unfold cuePocketed in Hcue.
    destruct (isFreeze g); [by eauto|].
    pose proof (ballLoop_pocketedOut dt _ g ∅ Hk Haway) as Hl.
    pose proof (ballLoop_seq_no_Return dt (length (ballVelocities g)) g) as Hr.
    destruct (ballLoop _ _ _ _) as [g1 u1|g1|]; [| |done].
    - eauto using reduceVelocities_pocketedOut.
    - by destruct (Hr g1). }
  exists (chargeShot dt g'). unfold update. rewrite Hloop.
  eauto using chargeShot_pocketedOut.
Qed.

Lemma mouseButtonReleased_pocketedOut px py g :
  k <> 0%nat -> pocketedOut k g -> pocketedOut k (mouseButtonReleased px py g).
Proof.
  intros Hk0 [Hp Hv]. unfold mouseButtonReleased.
  destruct (_ <? _); split; simpl; by rewrite ?list_lookup_insert_ne.
Qed.

Lemma run_pocketedOut es g :
  k <> 0%nat ->
  pocketedOut k g ->
  quietRun es g = true ->
  exists g', run es g = Some g' /\ pocketedOut k g'.
Proof.
  intros Hk0. revert g.
  induction es as [|e es IH]; intros g Hk Hquiet; simpl; [by eauto|].
  simpl in Hquiet. apply andb_true_iff in Hquiet as [He Hrest].
  destruct e as [dt|px py|px py]; simpl in *.
  - apply andb_true_iff in He as [Hcue%negb_true_iff Haway].
    destruct (update_pocketedOut dt g Hk Hcue Haway) as (g1 & Hu & Hk1).
    rewrite Hu in *. simpl. by apply IH.
  - by apply IH.
  - apply IH; [|done]. by apply mouseButtonReleased_pocketedOut.
Qed.

End Pocketed.

(** *** The charging *)

Lemma update_charge dt g :
  exists g', update dt g = Some g'
    /\ isChargingShot g' = isChargingShot g
    /\ shotChargeProgress g'
       = if isChargingShot g
         then fmin (shotChargeProgress g + dt / chargeTime) (flit 1)
         else shotChargeProgress g.
Proof.
  destruct (physicLoop_charge dt g) as (g1 & Hloop & Hc & Hp).
  exists (chargeShot dt g1). unfold update. rewrite Hloop. split; [done|].
  unfold chargeShot. rewrite Hc, <- Hp. by destruct (isChargingShot g).
Qed.

Lemma run_inUnit es g :
  clampLaw ->
  inUnit (shotChargeProgress g) ->
  Forall nonnegTick es ->
  exists g', run es g = Some g' /\ inUnit (shotChargeProgress g').
Proof.
  intros [Hzero Hclamp] Hp Hes. revert g Hp.
  induction Hes as [|e es He _ IH]; intros g Hp; simpl; [by eauto|].
  destruct e as [dt|px py|px py]; simpl in *.
  - destruct (update_charge dt g) as (g1 & -> & _ & Hp1). simpl.
    apply IH. rewrite Hp1. destruct (isChargingShot g); [|done].
    by apply Hclamp.
  - by apply IH.
  - by apply IH.
Qed.

End Properties.

(** ** Properties in exact arithmetic *)

Section Exact.
Context {DR : DeadReads R}.

Local Open Scope R_scope.

Implicit Types (g : Game R) (v d : Vector2 R).

Lemma Rltb_lt (a b : R) : fltb a b = true <-> a < b.
Proof.
  unfold fltb. simpl. unfold Rcmp.
  destruct (total_order_T a b) as [[?|?]|?]; split; intros; try done; lra.
Qed.

Lemma Rleb_le (a b : R) : fleb a b = true <-> a <= b.
Proof.
  unfold fleb. simpl. unfold Rcmp.
  destruct (total_order_T a b) as [[?|?]|?]; split; intros; try done; lra.
Qed.

Lemma Rmin_fmin (a b : R) : fmin a b = Rmin a b.
Proof.
  unfold fmin, Rmin. destruct (fltb b a) eqn:E.
  - apply Rltb_lt in E. destruct (Rle_dec a b); lra.
  - destruct (Rle_dec a b); [done|].
    assert (b < a) as ?%Rltb_lt by lra. congruence.
Qed.

Lemma flit_R_0 : flit (float := R) 0 = 0.
Proof. simpl. unfold Q2R. simpl. lra. Qed.

Lemma flit_R_1 : flit (float := R) 1 = 1.
Proof. simpl. unfold Q2R. simpl. lra. Qed.

Lemma flit_R_cent : flit (float := R) (1 # 100) = 1 / 100.
Proof. simpl. unfold Q2R. simpl. lra. Qed.

Lemma Vector2_length_zero : Vector2_length (float := R) Vector2_zero = 0.
Proof.
  unfold Vector2_length, Vector2_norm, Vector2_zero. cbn [x y].
  rewrite flit_R_0. simpl. replace (0 * 0 + 0 * 0) with 0 by ring.
  apply sqrt_0.
Qed.

(** [normolize] of a vector that is not the origin has norm 1. *)
Lemma Vector2_normolize_unit d :
  d <> mkVector2 0 0 -> Vector2_norm (Vector2_normolize d) = 1.
Proof.
  destruct d as [dx dy]. intros Hd.
  unfold Vector2_norm, Vector2_normolize, Vector2_length, Vector2_norm. simpl.
  assert (Hpos : 0 < dx * dx + dy * dy).
  { destruct (Req_dec dx 0) as [->|]; [|nra].
    destruct (Req_dec dy 0) as [->|]; [by destruct Hd|nra]. }
  pose proof (sqrt_lt_R0 _ Hpos) as Hs.
  pose proof (sqrt_sqrt (dx * dx + dy * dy) ltac:(lra)) as Hsq.
  set (l := sqrt (dx * dx + dy * dy)) in *.
  replace (dx / l * (dx / l) + dy / l * (dy / l))
    with ((l * l) / (l * l)) by (rewrite Hsq at 1; field; lra).
  field. lra.
Qed.

Lemma Vector2_norm_scale v (k : R) :
  Vector2_norm (Vector2_scale v k) = k * k * Vector2_norm v.
Proof. destruct v. unfold Vector2_norm, Vector2_scale. simpl. ring. Qed.

(** C2 (as the code has it).  In exact arithmetic, for two balls at
    distinct positions, when the reads of [dir] find the normalised
    vector that [normolize()] computed, the exchange of
    [recalculateVelocities] keeps the sum of the squared speeds,
    [norm(v_i) + norm(v_j)]. *)
Theorem recalculateVelocities_conserves g (i j : nat) :
  (i < length (ballVelocities g))%nat ->
  (j < length (ballVelocities g))%nat ->
  ballPositions g !!! i <> ballPositions g !!! j ->
  liveReads i j g ->
  let g' := recalculateVelocities i j g in
  Vector2_norm (ballVelocities g' !!! i) + Vector2_norm (ballVelocities g' !!! j)
  = Vector2_norm (ballVelocities g !!! i) + Vector2_norm (ballVelocities g !!! j).
Proof.
  intros Hi Hj Hp Hlive. cbv zeta.
  assert (Hij : i <> j) by (intros ->; by apply Hp).
  destruct (recalculateVelocities_lookup i j g Hlive Hij Hi Hj) as [-> ->].
  assert (Hn : Vector2_norm (Vector2_normolize
                 (Vector2_sub (ballPositions g !!! j) (ballPositions g !!! i)))
               = 1).
  { apply Vector2_normolize_unit. intros Hd. apply Hp.
    destruct (ballPositions g !!! i) as [xi yi],
             (ballPositions g !!! j) as [xj yj].
    injection Hd as Hx Hy. simpl in *. f_equal; lra. }
  revert Hn.
  generalize (Vector2_normolize
                (Vector2_sub (ballPositions g !!! j) (ballPositions g !!! i))).
  intros [nx ny].
  destruct (ballVelocities g !!! i) as [ux uy],
           (ballVelocities g !!! j) as [wx wy].
  unfold exchangeNormal, Vector2_norm, Vector2_add, Vector2_sub,
    Vector2_scale, Vector2_dot.
  simpl. intros Hn.
  apply Rminus_diag_uniq.
  transitivity (2 * ((ux * nx + uy * ny) - (wx * nx + wy * ny))
                  * ((ux * nx + uy * ny) - (wx * nx + wy * ny))
                  * (nx * nx + ny * ny - 1)); [ring|].
  rewrite Hn. ring.
Qed.

Lemma launchVelocity_norm (px py : R) g :
  0 < Vector2_length (Vector2_sub (mkVector2 px py) (ballPositions g !!! 0%nat)) ->
  Vector2_norm (launchVelocity px py g)
  = (6 * shotChargeProgress g) * (6 * shotChargeProgress g).
Proof.
  intros Hd.
  unfold launchVelocity. rewrite Vector2_norm_scale, Vector2_normolize_unit.
  - unfold impulse. simpl. unfold Q2R. simpl. lra.
  - intros E. rewrite E in Hd. unfold Vector2_length, Vector2_norm in Hd.
    simpl in Hd. replace (0 * 0 + 0 * 0) with 0 in Hd by ring.
    rewrite sqrt_0 in Hd. lra.
Qed.

(** C5 (as the code has it).  A release whose direction from the cue
    ball is shorter than the accuracy, and not of length zero, while the
    cue ball is below [0.01], is not ignored: in every arithmetic the
    velocity of the cue ball becomes the normalised direction scaled by
    [impulse * shotChargeProgress], as for any other direction, and the
    charging state is cleared; in exact arithmetic that is a launch at
    speed [6 * shotChargeProgress]. *)
Theorem release_near_cue_launches :
  (forall (float : Type) (FO : FloatOps float) (px py : float) (g : Game float),
     wf g ->
     (Vector2_length (ballVelocities g !!! 0%nat) <? flit (1 # 100))%fl = true ->
     slow (Vector2_sub (mkVector2 px py) (ballPositions g !!! 0%nat)) = true ->
     (flit 0 <? Vector2_length
                  (Vector2_sub (mkVector2 px py) (ballPositions g !!! 0%nat)))%fl
     = true ->
     ballVelocities (mouseButtonReleased px py g) !!! 0%nat
     = launchVelocity px py g
     /\ isChargingShot (mouseButtonReleased px py g) = false
     /\ shotChargeProgress (mouseButtonReleased px py g) = flit 0)
  /\ (forall (px py : R) (g : Game R),
        0 < Vector2_length
              (Vector2_sub (mkVector2 px py) (ballPositions g !!! 0%nat)) ->
        Vector2_norm (launchVelocity px py g)
        = (6 * shotChargeProgress g) * (6 * shotChargeProgress g)).
Proof.
  split; [|apply launchVelocity_norm].
  intros float FO px py g Hwf Hv _ _.
  split; [by apply mouseButtonReleased_launch|].
  by destruct (mouseButtonReleased_clear px py g) as (? & ? & _).
Qed.

(** *** The charge progress *)

Lemma inUnit_R (p : R) : inUnit p <-> 0 <= p <= 1.
Proof.
  unfold inUnit. rewrite !Rleb_le, flit_R_0, flit_R_1. tauto.
Qed.

Lemma Rgeb_ge (a b : R) : fgeb a b = true <-> b <= a.
Proof.
  unfold fgeb. simpl. unfold Rcmp.
  destruct (total_order_T a b) as [[?|?]|?]; split; intros; try done; lra.
Qed.

Lemma charge_R (p dt : R) :
  fmin (fadd p (fdiv dt chargeTime)) (flit 1) = Rmin (p + dt) 1.
Proof.
  rewrite Rmin_fmin. unfold chargeTime. rewrite flit_R_1. simpl.
  f_equal. lra.
Qed.

Lemma clampLaw_R : clampLaw (float := R).
Proof.
  split; [apply inUnit_R; rewrite flit_R_0; lra|].
  intros p dt Hp%inUnit_R Hdt%Rgeb_ge. rewrite flit_R_0 in Hdt.
  apply inUnit_R. rewrite charge_R.
  unfold Rmin. destruct (Rle_dec _ _); lra.
Qed.

End Exact.

(** ** Properties in single precision *)

Section Single.
Local Open Scope Z_scope.

(** Rounding keeps a mantissa that is not negative so. *)
Lemma shr_1_nonneg mrs : 0 <= shr_m mrs -> 0 <= shr_m (shr_1 mrs).
Proof. destruct mrs as [[|[]|[]] r s]; simpl; lia. Qed.

Lemma iter_shr_1_nonneg p mrs :
  0 <= shr_m mrs -> 0 <= shr_m (SpecFloat.iter_pos shr_1 p mrs).
Proof.
  revert mrs. induction p as [p IH|p IH|]; intros mrs Hm; simpl.
  - apply IH, IH. by apply shr_1_nonneg.
  - by apply IH, IH.
  - by apply shr_1_nonneg.
Qed.

Lemma shr_fexp_nonneg prec emax m e l :
  0 <= m -> 0 <= shr_m (shr_fexp prec emax m e l).1.
Proof.
  intros Hm. unfold shr_fexp, shr.
  assert (H0 : 0 <= shr_m (shr_record_of_loc m l)) by (by destruct l as [|[]]).
  destruct (_ - e); simpl; [done| |done]. by apply iter_shr_1_nonneg.
Qed.

Lemma round_nearest_even_nonneg m l : 0 <= m -> 0 <= round_nearest_even m l.
Proof.
  intros Hm. destruct l as [|[]]; simpl; [done| |done|lia].
  destruct (Z.even m); lia.
Qed.

Lemma binary_round_aux_nonneg prec emax m e l :
  0 <= m -> b32_nonneg (binary_round_aux prec emax false m e l).
Proof.
  intros Hm. unfold binary_round_aux.
  pose proof (shr_fexp_nonneg prec emax m e l Hm) as H1.
  destruct (shr_fexp prec emax m e l) as [mrs' e']. simpl in H1.
  pose proof (shr_fexp_nonneg prec emax _ e' loc_Exact
                (round_nearest_even_nonneg _ (loc_of_shr_record mrs') H1))
    as H2.
  destruct (shr_fexp prec emax _ e' loc_Exact) as [mrs'' e'']. simpl in H2.
  destruct (shr_m mrs'') as [|q|q]; simpl; [done| |lia].
  by destruct (_ <=? _).
Qed.

Lemma SFadd_nonneg a b :
  b32_nonneg a -> b32_nonneg b -> b32_nonneg (SFadd 24 128 a b).
Proof.
  destruct a as [sa|sa| |sa ma ea], b as [sb|sb| |sb mb eb]; simpl;
    try done; try (by intros -> ->); try (by destruct sa, sb).
  intros -> ->. simpl. unfold binary_round.
  destruct (shl_align _ _ (fexp _ _ _)) as [mz ez].
  by apply binary_round_aux_nonneg.
Qed.

Lemma SFdiv_nonneg a m e :
  b32_nonneg a -> b32_nonneg (SFdiv 24 128 a (S754_finite false m e)).
Proof.
  destruct a as [sa|sa| |sa ma ea]; simpl; try done.
  - by intros ->.
  - intros ->. simpl. unfold SFdiv_core_binary.
    set (m' := match _ with Z0 => Zpos ma | Zpos _ => _ | Zneg _ => 0 end).
    assert (Hm' : 0 <= m').
    { subst m'. destruct (_ - _); [lia| |lia]. by apply Z.shiftl_nonneg. }
    pose proof (Z.div_pos m' (Zpos m) Hm' ltac:(lia)) as Hq.
    unfold Z.div in Hq. destruct (Z.div_eucl m' (Zpos m)) as [q r].
    by apply binary_round_aux_nonneg.
Qed.

Local Open Scope float_scope.

Lemma b32_nonneg_leb (a : binary32) : (flit 0 <=? a) = true <-> b32_nonneg a.
Proof.
  change (flit (float := binary32) 0) with (S754_zero false).
  unfold fleb. simpl. by destruct a as [s|[]| |[] m e].
Qed.

Lemma b32_nonneg_geb (a : binary32) : (a >=? flit 0) = true <-> b32_nonneg a.
Proof.
  change (flit (float := binary32) 0) with (S754_zero false).
  unfold fgeb. simpl. by destruct a as [s|[]| |[] m e].
Qed.

(** Against a positive finite number, not [b < a] gives [a <= b] when
    [a] is not negative (so not a NaN). *)
Lemma b32_not_lt_le (mb : positive) (eb : Z) (a : binary32) :
  b32_nonneg a ->
  (S754_finite false mb eb <? a) = false ->
  (a <=? S754_finite false mb eb) = true.
Proof.
  unfold fltb, fleb. cbn [fcompare binary32_ops].
  destruct a as [s|s| |s m e]; cbn [b32_nonneg SFcompare]; intros Ha;
    try done; subst s; try done.
  rewrite (Z.compare_antisym e eb).
  destruct (e ?= eb)%Z; cbn [CompOpp]; try done.
  replace (PosDef.Pos.compare_cont Eq mb m)
    with (CompOpp (Pos.compare_cont Eq m mb))
    by apply (Pos.compare_cont_antisym m mb Eq).
  by destruct (Pos.compare_cont Eq m mb).
Qed.

Lemma clampLaw_binary32 : clampLaw (float := binary32).
Proof.
  split; [split; vm_compute; reflexivity|].
  intros p dt [Hp%b32_nonneg_leb _] Hdt%b32_nonneg_geb.
  assert (Ha : b32_nonneg (p + dt / chargeTime)).
  { apply SFadd_nonneg; [done|].
    change (chargeTime (float := binary32))
      with (S754_finite false 8388608 (-23)).
    by apply SFdiv_nonneg. }
  revert Ha. generalize (p + dt / chargeTime). intros a Ha.
  unfold fmin. destruct (flit 1 <? a) eqn:E.
  - split; vm_compute; reflexivity.
  - split; [by apply b32_nonneg_leb|].
    change (flit (float := binary32) 1)
      with (S754_finite false 8388608 (-23)) in *.
    by apply b32_not_lt_le.
Qed.

End Single.

(** ** The charge progress *)

(** C7.  The clamp of [update] keeps the charge progress in [[0, 1]] in
    exact arithmetic and in binary32; in every arithmetic where it
    does, from a game whose charge progress is in [[0, 1]] (the program
    starts at [0]), every sequence of [update], [mouseButtonPressed]
    and [mouseButtonReleased] with ticks that are not negative returns
    and leaves the charge progress in [[0, 1]].  In every arithmetic a
    tick returns, keeps [isChargingShot], and changes the progress only
    when the flag is set, to [min(progress + dt / chargeTime, 1)]; in
    exact arithmetic that is [min(progress + dt, 1)], not below
    [progress]. *)
Theorem shotChargeProgress_clamped :
  clampLaw (float := R)
  /\ clampLaw (float := binary32)
  /\ (forall (float : Type) (FO : FloatOps float) (DR : DeadReads float)
         (es : list (Event float)) (g : Game float),
         clampLaw (float := float) ->
         inUnit (shotChargeProgress g) ->
         Forall nonnegTick es ->
         exists g', run es g = Some g' /\ inUnit (shotChargeProgress g'))
  /\ (forall (float : Type) (FO : FloatOps float) (DR : DeadReads float)
         (dt : float) (g : Game float),
         exists g',
           update dt g = Some g'
           /\ isChargingShot g' = isChargingShot g
           /\ shotChargeProgress g'
              = if isChargingShot g
                then fmin (fadd (shotChargeProgress g) (fdiv dt chargeTime))
                          (flit 1)
                else shotChargeProgress g)
  /\ (forall p dt : R,
         (inUnit p <-> (0 <= p <= 1)%R)
         /\ fmin (fadd p (fdiv dt chargeTime)) (flit 1) = Rmin (p + dt) 1
         /\ ((0 <= dt)%R -> (p <= 1)%R -> (p <= Rmin (p + dt) 1)%R)).
Proof.
  split; [apply clampLaw_R|]. split; [apply clampLaw_binary32|].
  split; [intros float FO DR es g; apply run_inUnit|].
  split; [intros float FO DR dt g; apply update_charge|].
  intros p dt. split; [apply inUnit_R|]. split; [apply charge_R|].
  intros Hdt Hp. unfold Rmin. destruct (Rle_dec _ _); lra.
Qed.

(** ** The sentinel *)

Lemma infinity_R : infinity (float := R) = 46%R.
Proof. unfold infinity, height, width. simpl. unfold Q2R. simpl. lra. Qed.

Lemma infinity_binary32 : infinity (float := binary32) = b32_of_Z 46.
Proof. vm_compute. reflexivity. Qed.

Lemma zero_slow_binary32 : slow (float := binary32) Vector2_zero = true.
Proof. vm_compute. reflexivity. Qed.

Lemma zero_slow_R : slow (float := R) Vector2_zero = true.
Proof.
  unfold slow. apply Rltb_lt. rewrite Vector2_length_zero.
  unfold accurance. rewrite flit_R_cent. lra.
Qed.

(** C6 (as the code has it).  The sentinel is [(46, 46)].  In every
    arithmetic in which the zero vector is below the accuracy (the
    reals and binary32 are such), a non-cue ball that is pocketed-out
    stays at the sentinel with the zero velocity through every
    sequence of calls during which the rack is not reset and no
    processed ball has its candidate end position closer than two
    radii to the sentinel: its own turn of the loop and the friction
    skip it, and only as the target of a pair collision could it be
    written. *)
Theorem pocketed_ball_stays :
  infinity (float := R) = 46%R
  /\ infinity (float := binary32) = b32_of_Z 46
  /\ slow (float := R) Vector2_zero = true
  /\ slow (float := binary32) Vector2_zero = true
  /\ forall (float : Type) (FO : FloatOps float) (DR : DeadReads float)
        (k : nat) (es : list (Event float)) (g : Game float),
        slow (float := float) Vector2_zero = true ->
        k <> 0%nat ->
        pocketedOut k g ->
        quietRun es g = true ->
        exists g', run es g = Some g' /\ pocketedOut k g'.
Proof.
  split; [apply infinity_R|]. split; [apply infinity_binary32|].
  split; [apply zero_slow_R|]. split; [apply zero_slow_binary32|].
  intros float FO DR k es g Hz Hk0 Hk Hq. by apply (run_pocketedOut k Hz).
Qed.

(** ** The program evaluated in binary32 *)

Section Evaluated.
Local Open Scope float_scope.

(** The pair collisions below are evaluated with the reads of [dir]
    finding the temporary intact, unless said otherwise. *)
#[local] Existing Instance intactReads.

(** C1, the code at the failing inputs.  On the fresh rack every ball
    is at rest, so at least one ball is below the accuracy: [isFreeze]
    answers [false] and [update] does not skip the physics step, it
    runs the loop and the friction.  With all seven balls rolling no
    ball is below the accuracy: [isFreeze] answers [true], [update]
    skips the physics step and leaves every ball where it is, with the
    velocity it has. *)
Lemma isFreeze_inverted :
  Exists (fun v => slow v = true) (ballVelocities (rack (float := binary32)))
  /\ isFreeze (rack (float := binary32)) = false
  /\ update tick (rack (float := binary32))
     = match ballLoop tick (seq 0 7) (rack (float := binary32)) ∅ with
       | Next g' _ => Some (chargeShot tick (reduceVelocities tick g'))
       | Return g' => Some (chargeShot tick g')
       | Abort => None
       end
  /\ Forall (fun v => slow v = false) (ballVelocities (allRolling (float := binary32)))
  /\ ballVelocities (allRolling (float := binary32)) = replicate 7 (Vector2_lit 1 0)
  /\ isFreeze (allRolling (float := binary32)) = true
  /\ update tick (allRolling (float := binary32)) = Some allRolling.
Proof.
  split; [left; vm_compute; reflexivity|].
  split; [vm_compute; reflexivity|].
  split; [vm_compute; reflexivity|].
  split; [repeat (constructor; [vm_compute; reflexivity|]); constructor|].
  split; [vm_compute; reflexivity|].
  split; vm_compute; reflexivity.
Qed.

(** C2, refuted as stated.  In [obliquePair] the cue ball and ball 1
    are at distinct positions in the middle of the table, and a tick
    makes them collide: the cue ball is processed, its candidate end
    position is in no pocket, hits no border, and [findClosestBall]
    answers ball 1.  In binary32, with the reads of [dir] finding the
    temporary intact, the exchange between them does not keep the sum
    of the squared speeds: the two sums differ by the rounding. *)
Lemma recalculateVelocities_counterexample :
  let g := obliquePair (float := binary32) in
  let g' := recalculateVelocities (DR := intactReads) 0 1 g in
  ballPositions g !!! 0%nat <> ballPositions g !!! 1%nat
  /\ processed 0 g ∅ = true
  /\ inPocket (ballEndPos tick 0 g) = false
  /\ hitsBorderX (ballEndPos tick 0 g) || hitsBorderY (ballEndPos tick 0 g) = false
  /\ findClosestBall g (ballEndPos tick 0 g) 0 = 1%nat
  /\ liveReads (DR := intactReads) 0 1 g
  /\ Vector2_norm (ballVelocities g' !!! 0%nat)
     + Vector2_norm (ballVelocities g' !!! 1%nat)
     <> Vector2_norm (ballVelocities g !!! 0%nat)
        + Vector2_norm (ballVelocities g !!! 1%nat).
Proof.
  cbv zeta. split; [vm_compute; discriminate|].
  split; [vm_compute; reflexivity|]. split; [vm_compute; reflexivity|].
  split; [vm_compute; reflexivity|]. split; [vm_compute; reflexivity|].
  split; [intros line; reflexivity|]. vm_compute. discriminate.
Qed.

(** C9, the code at the failing input: the exchange between the cue
    ball and ball 1 of [obliquePair].  The formula of the claim changes
    the velocity of the cue ball.  When the reads of [dir] find the
    temporary intact, the two velocities written are those of the
    formula; when they find zeros, both velocities are written back
    as they were.  What the call does is not fixed by the source. *)
Lemma recalculateVelocities_dead_reads :
  let g := obliquePair (float := binary32) in
  let n := Vector2_normolize (Vector2_sub (ballPositions g !!! 1%nat)
                                          (ballPositions g !!! 0%nat)) in
  let vi := ballVelocities g !!! 0%nat in
  let vj := ballVelocities g !!! 1%nat in
  ballPositions g !!! 0%nat <> ballPositions g !!! 1%nat
  /\ exchangeNormal n vi vj <> vi
  /\ exchangeNormal n vj vi <> vj
  /\ ballVelocities (recalculateVelocities (DR := intactReads) 0 1 g) !!! 0%nat
     = exchangeNormal n vi vj
  /\ ballVelocities (recalculateVelocities (DR := intactReads) 0 1 g) !!! 1%nat
     = exchangeNormal n vj vi
  /\ ballVelocities (recalculateVelocities (DR := zeroedReads) 0 1 g) !!! 0%nat
     = vi
  /\ ballVelocities (recalculateVelocities (DR := zeroedReads) 0 1 g) !!! 1%nat
     = vj.
Proof.
  cbv zeta. split; [vm_compute; discriminate|].
  split; [vm_compute; discriminate|]. split; [vm_compute; discriminate|].
  repeat split; vm_compute; reflexivity.
Qed.

(** C3, refuted as stated.  With the cue ball at rest on a pocket its
    candidate end position passes the pocket test, and the tick leaves
    the game as it is, the cue ball on the pocket; so does the tick
    when all seven balls roll and the cue ball rolls into the pocket. *)
Lemma cue_pocketed_counterexample :
  inPocket (ballEndPos tick 0 (cueAtPocket (float := binary32))) = true
  /\ update tick cueAtPocket = Some cueAtPocket
  /\ ballPositions (cueAtPocket (float := binary32)) <> ballsPositions
  /\ inPocket (ballEndPos tick 0 (allRolling (float := binary32))) = true
  /\ update tick allRolling = Some allRolling
  /\ ballPositions (allRolling (float := binary32)) <> ballsPositions
  /\ ballVelocities (allRolling (float := binary32)) <> replicate 7 Vector2_zero.
Proof.
  split; [vm_compute; reflexivity|].
  split; [vm_compute; reflexivity|].
  split; [vm_compute; discriminate|].
  split; [vm_compute; reflexivity|].
  split; [vm_compute; reflexivity|].
  split; vm_compute; discriminate.
Qed.

(** C5, refuted as stated.  On the charged rack a release at
    [(-4.495, 0)], half a hundredth from the cue ball, has a direction
    shorter than the accuracy; the cue ball, at rest before, leaves
    with velocity [(6, 0)], and the charging state is cleared. *)
Lemma release_near_cue_counterexample :
  let px : binary32 := flit (-4495 # 1000) in
  let g' := mouseButtonReleased px (flit 0) chargedRack in
  slow (Vector2_sub (mkVector2 px (flit 0))
                    (ballPositions chargedRack !!! 0%nat)) = true
  /\ (Vector2_length (ballVelocities (chargedRack (float := binary32)) !!! 0%nat)
      <? flit (1 # 100)) = true
  /\ ballVelocities (chargedRack (float := binary32)) !!! 0%nat = Vector2_lit 0 0
  /\ ballVelocities g' !!! 0%nat = Vector2_lit 6 0
  /\ isChargingShot g' = false
  /\ shotChargeProgress g' = flit 0.
Proof. repeat split; vm_compute; reflexivity. Qed.

(** A release exactly on the cue ball divides by the zero length: the
    velocity of the cue ball becomes not-a-number. *)
Lemma release_on_cue_nan :
  let p0 := ballPositions (chargedRack (float := binary32)) !!! 0%nat in
  ballVelocities (mouseButtonReleased (x p0) (y p0) chargedRack) !!! 0%nat
  = mkVector2 S754_nan S754_nan.
Proof. vm_compute. reflexivity. Qed.

(** C6, refuted as stated.  Ball 1 is pocketed-out and the cue ball is
    shot up and to the right.  A long tick carries the cue ball off the
    table next to the sentinel; on the next tick [findClosestBall]
    picks ball 1 and the pair collision moves it and gives it a
    velocity.  The rack is not reset in between. *)
Lemma stray_cue_counterexample :
  pocketedOut 1 (strayCue (float := binary32))
  /\ cuePocketed longTick (strayCue (float := binary32)) = false
  /\ exists g1 g2 : Game binary32,
       update longTick strayCue = Some g1
       /\ pocketedOut 1 g1
       /\ cuePocketed tick g1 = false
       /\ update tick g1 = Some g2
       /\ ballPositions g2 !!! 1%nat <> mkVector2 infinity infinity
       /\ ballVelocities g2 !!! 1%nat <> Vector2_zero.
Proof.
  split; [split; vm_compute; reflexivity|].
  split; [vm_compute; reflexivity|].
  eexists. eexists.
  split; [vm_compute; reflexivity|].
  split; [split; vm_compute; reflexivity|].
  split; [vm_compute; reflexivity|].
  split; [vm_compute; reflexivity|].
  split; vm_compute; discriminate.
Qed.

(** C8, refuted as stated.  The cue ball is processed, its candidate
    end position is in no pocket and hits the right border; ball 1,
    processed after it, picks it as its collision partner and moves
    it: after the tick the cue ball is not where it was, and its x
    velocity is positive again. *)
Lemma border_pair_counterexample :
  processed 0 (borderPair (float := binary32)) ∅ = true
  /\ inPocket (ballEndPos tick 0 (borderPair (float := binary32))) = false
  /\ hitsBorderX (ballEndPos tick 0 (borderPair (float := binary32))) = true
  /\ exists g' : Game binary32,
       update tick borderPair = Some g'
       /\ ballPositions g' !!! 0%nat <> ballPositions borderPair !!! 0%nat
       /\ (x (ballVelocities g' !!! 0%nat) >? flit 0) = true.
Proof.
  split; [vm_compute; reflexivity|].
  split; [vm_compute; reflexivity|].
  split; [vm_compute; reflexivity|].
  eexists. split; [vm_compute; reflexivity|].
  split; [vm_compute; discriminate | vm_compute; reflexivity].
Qed.

(** *** The theorems at work *)

Lemma cue_pocketed_resets_rack_witness :
  isFreeze (cueIntoPocket (float := binary32)) = false
  /\ (Vector2_length (ballVelocities (cueIntoPocket (float := binary32)) !!! 0%nat)
      <=? accurance) = false
  /\ inPocket (ballEndPos tick 0 (cueIntoPocket (float := binary32))) = true
  /\ exists g' : Game binary32,
       update tick cueIntoPocket = Some g'
       /\ ballPositions g' = ballsPositions
       /\ ballVelocities g' = replicate 7 Vector2_zero.
Proof.
  assert (H1 : isFreeze (cueIntoPocket (float := binary32)) = false)
    by (vm_compute; reflexivity).
  assert (H2 : (Vector2_length
                  (ballVelocities (cueIntoPocket (float := binary32)) !!! 0%nat)
                <=? accurance) = false) by (vm_compute; reflexivity).
  assert (H3 : inPocket (ballEndPos tick 0 (cueIntoPocket (float := binary32))) = true)
    by (vm_compute; reflexivity).
  repeat (split; [assumption|]).
  destruct (cue_pocketed_resets_rack tick cueIntoPocket H1 H2 H3)
    as (g' & _ & _ & Hu & _ & _ & Hp & Hv).
  exists (chargeShot tick g'). auto.
Defined.

Lemma mouseButtonReleased_spec_witness :
  let g := chargedRack (float := binary32) in
  let g' := mouseButtonReleased (flit 0) (flit 0) g in
  wf g
  /\ (Vector2_length (ballVelocities g !!! 0%nat) <? flit (1 # 100)) = true
  /\ ballVelocities g' !!! 0%nat = launchVelocity (flit 0) (flit 0) g
  /\ launchVelocity (flit 0) (flit 0) g = Vector2_lit 6 0
  /\ isChargingShot g' = false
  /\ shotChargeProgress g' = flit 0.
Proof.
  assert (Hwf : wf (chargedRack (float := binary32))) by (split; reflexivity).
  assert (Hv : (Vector2_length (ballVelocities (chargedRack (float := binary32))
                                !!! 0%nat) <? flit (1 # 100)) = true)
    by (vm_compute; reflexivity).
  pose proof (mouseButtonReleased_spec (flit 0) (flit 0) chargedRack Hwf) as Hrel.
  cbv zeta in Hrel. destruct Hrel as (Hlaunch & _ & _ & Hc & Hp & _).
  cbv zeta. split; [exact Hwf|]. split; [exact Hv|].
  split; [exact (Hlaunch Hv)|].
  split; [vm_compute; reflexivity|]. split; [exact Hc | exact Hp].
Defined.

Lemma pocketed_ball_stays_witness :
  let es : list (Event binary32) :=
    [MouseButtonPressed (flit 0) (flit 0); Update tick;
     MouseButtonReleased (flit 0) (flit 0); Update tick] in
  slow (float := binary32) Vector2_zero = true
  /\ pocketedOut 1 (rollingCue (float := binary32))
  /\ quietRun es rollingCue = true
  /\ exists g', run es rollingCue = Some g' /\ pocketedOut 1 g'.
Proof.
  cbv zeta.
  assert (Hk : pocketedOut 1 (rollingCue (float := binary32)))
    by (split; vm_compute; reflexivity).
  assert (Hq : quietRun
                 [MouseButtonPressed (flit 0) (flit 0); Update tick;
                  MouseButtonReleased (flit 0) (flit 0); Update tick]
                 (rollingCue (float := binary32)) = true)
    by (vm_compute; reflexivity).
  split; [exact zero_slow_binary32|]. split; [exact Hk|]. split; [exact Hq|].
  exact (proj2 (proj2 (proj2 (proj2 pocketed_ball_stays)))
           binary32 _ _ 1%nat _ rollingCue zero_slow_binary32
           (Nat.neq_succ_0 0) Hk Hq).
Defined.

Lemma border_hit_step_witness :
  (0 < length (ballVelocities (borderPair (float := binary32))))%nat
  /\ processed 0 (borderPair (float := binary32)) ∅ = true
  /\ inPocket (ballEndPos tick 0 (borderPair (float := binary32))) = false
  /\ hitsBorderX (ballEndPos tick 0 (borderPair (float := binary32)))
     || hitsBorderY (ballEndPos tick 0 (borderPair (float := binary32))) = true
  /\ exists g' : Game binary32,
       ballStep tick 0 borderPair ∅ = Next g' ∅
       /\ ballPositions g' = ballPositions borderPair
       /\ ballVelocities g' !!! 0%nat = mkVector2 (- flit 6) (flit 0).
Proof.
  assert (H0 : (0 < length (ballVelocities (borderPair (float := binary32))))%nat)
    by (simpl; lia).
  assert (H1 : processed 0 (borderPair (float := binary32)) ∅ = true)
    by (vm_compute; reflexivity).
  assert (H2 : inPocket (ballEndPos tick 0 (borderPair (float := binary32))) = false)
    by (vm_compute; reflexivity).
  assert (H3 : hitsBorderX (ballEndPos tick 0 (borderPair (float := binary32)))
               || hitsBorderY (ballEndPos tick 0 (borderPair (float := binary32)))
               = true) by (vm_compute; reflexivity).
  repeat (split; [assumption|]).
  destruct (border_hit_step tick 0 borderPair ∅ H0 H1 H2 H3)
    as (g' & Hs & Hp & Hv & _).
  exists g'. split; [exact Hs|]. split; [exact Hp|].
  rewrite Hv. vm_compute. reflexivity.
Defined.

Lemma update_all_slow_witness :
  length (ballVelocities (rack (float := binary32))) = 7%nat
  /\ Forall (fun v => slow v = true) (ballVelocities (rack (float := binary32)))
  /\ isFreeze (rack (float := binary32)) = false
  /\ update tick rack = Some (chargeShot tick rack)
  /\ ballPositions (chargeShot tick (rack (float := binary32))) = ballPositions rack
  /\ ballVelocities (chargeShot tick (rack (float := binary32))) = ballVelocities rack.
Proof.
  assert (Hlen : length (ballVelocities (rack (float := binary32))) = 7%nat)
    by reflexivity.
  assert (Hall : Forall (fun v => slow v = true)
                        (ballVelocities (rack (float := binary32)))).
  { repeat (constructor; [vm_compute; reflexivity|]). constructor. }
  split; [exact Hlen|]. split; [exact Hall|].
  destruct (update_all_slow tick rack Hlen Hall) as (Hf & _ & Hu & _ & Hp & Hv).
  auto.
Defined.

End Evaluated.

(** ** The theorems at work in exact arithmetic *)

Section ExactWitnesses.
Local Open Scope R_scope.

(** The reads of [dir] find the temporary intact. *)
#[local] Existing Instance intactReads.

Lemma obliquePair_length :
  Vector2_length
    (Vector2_sub (ballPositions (obliquePair (float := R)) !!! 1%nat)
                 (ballPositions (obliquePair (float := R)) !!! 0%nat))
  = 6 / 10.
Proof.
  unfold Vector2_length, Vector2_norm. simpl. unfold Q2R. simpl.
  replace ((36 * / 100 - 0 * / 1) * (36 * / 100 - 0 * / 1)
           + (48 * / 100 - 0 * / 1) * (48 * / 100 - 0 * / 1))
    with ((6 / 10) * (6 / 10)) by lra.
  rewrite sqrt_square by lra. lra.
Qed.

Lemma obliquePair_apart :
  ballPositions (obliquePair (float := R)) !!! 0%nat
  <> ballPositions (obliquePair (float := R)) !!! 1%nat.
Proof.
  intros E. apply (f_equal x) in E. revert E.
  simpl. unfold Q2R. simpl. lra.
Qed.

Lemma recalculateVelocities_conserves_witness :
  let g := obliquePair (float := R) in
  let g' := recalculateVelocities (DR := intactReads) 0 1 g in
  ballPositions g !!! 0%nat <> ballPositions g !!! 1%nat
  /\ liveReads (DR := intactReads) 0 1 g
  /\ ballVelocities g !!! 0%nat = mkVector2 5 1
  /\ ballVelocities g' !!! 0%nat = mkVector2 (272 / 100) (- (204 / 100))
  /\ ballVelocities g' !!! 1%nat = mkVector2 (228 / 100) (304 / 100)
  /\ Vector2_norm (ballVelocities g' !!! 0%nat)
     + Vector2_norm (ballVelocities g' !!! 1%nat)
     = Vector2_norm (ballVelocities g !!! 0%nat)
       + Vector2_norm (ballVelocities g !!! 1%nat).
Proof.
  cbv zeta.
  assert (Hlive : liveReads 0 1 (obliquePair (float := R)))
    by (intros line; reflexivity).
  split; [exact obliquePair_apart|]. split; [exact Hlive|].
  split; [simpl; unfold Vector2_lit, Q2R; simpl; f_equal; lra|].
  split; [|split].
  - unfold recalculateVelocities, deadRead, intactReads, Vector2_normolize.
    rewrite obliquePair_length. simpl.
    unfold Vector2_add, Vector2_sub, Vector2_scale, Vector2_lit,
      Vector2_zero, Q2R.
    simpl. f_equal; lra.
  - unfold recalculateVelocities, deadRead, intactReads, Vector2_normolize.
    rewrite obliquePair_length. simpl.
    unfold Vector2_add, Vector2_sub, Vector2_scale, Vector2_lit,
      Vector2_zero, Q2R.
    simpl. f_equal; lra.
  - apply (recalculateVelocities_conserves obliquePair 0 1);
      [simpl; lia | simpl; lia | exact obliquePair_apart | exact Hlive].
Defined.

Lemma release_near_cue_launches_witness :
  let g := chargedRack (float := R) in
  let px : R := -4495 / 1000 in
  let d := Vector2_sub (mkVector2 px 0) (ballPositions g !!! 0%nat) in
  let g' := mouseButtonReleased px 0 g in
  wf g
  /\ fltb (Vector2_length (ballVelocities g !!! 0%nat)) (flit (1 # 100)) = true
  /\ slow d = true
  /\ fltb (flit 0) (Vector2_length d) = true
  /\ ballVelocities g' !!! 0%nat = launchVelocity px 0 g
  /\ Vector2_norm (launchVelocity px 0 g) = 36
  /\ isChargingShot g' = false
  /\ shotChargeProgress g' = 0.
Proof.
  intros g px d g'.
  assert (Hwf : wf g) by (split; reflexivity).
  assert (Hv : fltb (Vector2_length (ballVelocities g !!! 0%nat))
                    (flit (1 # 100)) = true).
  { apply Rltb_lt.
    change (ballVelocities g !!! 0%nat) with (Vector2_zero (float := R)).
    rewrite Vector2_length_zero, flit_R_cent. lra. }
  assert (Hlen : Vector2_length d = 5 / 1000).
  { unfold Vector2_length, Vector2_norm, d, px. simpl. unfold Q2R. simpl.
    replace ((-4495 / 1000 - - (3 * / 10) * (15 * / 1))
             * (-4495 / 1000 - - (3 * / 10) * (15 * / 1))
             + (0 - 0 * / 1) * (0 - 0 * / 1))
      with ((5 / 1000) * (5 / 1000)) by lra.
    rewrite sqrt_square by lra. lra. }
  assert (Hd : slow d = true).
  { unfold slow. apply Rltb_lt. rewrite Hlen. unfold accurance.
    rewrite flit_R_cent. lra. }
  assert (Hnz : fltb (flit 0) (Vector2_length d) = true).
  { apply Rltb_lt. rewrite Hlen, flit_R_0. lra. }
  assert (Hpos : 0 < Vector2_length d) by (rewrite Hlen; lra).
  destruct (proj1 release_near_cue_launches R _ px 0 g Hwf Hv Hd Hnz)
    as (Hl & Hc & Hp).
  subst g'. repeat (split; [assumption|]).
  split.
  - rewrite (proj2 release_near_cue_launches px 0 g Hpos).
    change (shotChargeProgress g) with (flit (float := R) 1).
    rewrite flit_R_1. lra.
  - split; [exact Hc|]. rewrite Hp. apply flit_R_0.
Defined.

Lemma shotChargeProgress_clamped_witness :
  let es : list (Event R) :=
    [MouseButtonPressed 0 0; Update (1 / 2); Update 1;
     MouseButtonReleased 1 1; Update (1 / 60)] in
  inUnit (shotChargeProgress (Game_new (float := R)))
  /\ Forall nonnegTick es
  /\ exists g', run es Game_new = Some g' /\ inUnit (shotChargeProgress g').
Proof.
  cbv zeta.
  assert (Hp : inUnit (shotChargeProgress (Game_new (float := R)))).
  { apply inUnit_R. simpl. unfold Q2R. simpl. lra. }
  assert (Hes : Forall nonnegTick
                  [MouseButtonPressed 0 0; Update (1 / 2); Update 1;
                   MouseButtonReleased 1 1; Update (1 / 60)]).
  { repeat constructor; apply Rgeb_ge; rewrite flit_R_0; lra. }
  split; [exact Hp|]. split; [exact Hes|].
  exact (proj1 (proj2 (proj2 shotChargeProgress_clamped))
           R _ _ _ Game_new clampLaw_R Hp Hes).
Defined.

End ExactWitnesses.

(** ** More of the program, in every arithmetic *)

Section Lifecycle.
Context {float : Type} {FO : FloatOps float} {DR : DeadReads float}.

Local Open Scope float_scope.

Implicit Types (g : Game float) (v : Vector2 float) (dt : float).

(** *** init and deinit *)

Lemma Table_init_twice (t t' : Table float) :
  Table_init t = Some t' -> Table_init t' = None.
Proof.
  unfold Table_init. destruct (_ && _); [|done]. by intros [= <-].
Qed.

Lemma Table_init_balls (t t' : Table float) :
  Table_init t = Some t' ->
  balls t' = (fun p => Some (mkMesh radius p)) <$> ballsPositions.
Proof. unfold Table_init. destruct (_ && _); [|done]. by intros [= <-]. Qed.

(** X1.  After a successful [init], a second [init] without a [deinit]
    in between trips the assertion of [Table::init]; [init] after
    [deinit] succeeds again and gives the same rack.  [init] writes the
    positions of the parameter template and zero velocities, and leaves
    the charging state as it is. *)
Theorem init_twice_aborts g g' :
  init g = Some g' ->
  init g' = None
  /\ (exists g'', init (deinit g') = Some g''
        /\ ballPositions g'' = ballsPositions
        /\ ballVelocities g'' = replicate 7 Vector2_zero)
  /\ ballPositions g' = ballsPositions
  /\ ballVelocities g' = replicate 7 Vector2_zero
  /\ isChargingShot g' = isChargingShot g
  /\ shotChargeProgress g' = shotChargeProgress g.
Proof.
  unfold init at 1. destruct (Table_init (table g)) as [t|] eqn:Ht; [|done].
  simpl. intros [= <-]. split.
  - unfold init. simpl. by rewrite (Table_init_twice _ _ Ht).
  - split; [|done]. destruct (init_deinit (mkGame t (isChargingShot g)
      (shotChargeProgress g) ballsPositions (replicate 7 Vector2_zero)))
      as [t' Ht']. eexists. split; [exact Ht'|done].
Qed.

(** *** The sizes of the arrays *)

Lemma ballStep_wf dt i g u :
  wf g ->
  match ballStep dt i g u with
  | Next g' _ | Return g' => wf g'
  | Abort => False
  end.
Proof.
  intros [Hp Hv]. unfold ballStep.
  destruct (_ || _); [done|].
  destruct (inPocket _).
  - destruct (bool_decide (i = 0%nat)).
    + by destruct (init_deinit g) as [t ->].
    + split; simpl; by rewrite length_insert.
  - destruct (isBorderCollesion _ i g) as [hit g1] eqn:Hb.
    assert (wf g1) as [Hp1 Hv1].
    { revert Hb. unfold isBorderCollesion. intros [= _ <-].
      split; repeat case_match; simpl; by rewrite ?length_insert. }
    destruct hit; [done|].
    destruct (bool_decide _).
    + split; simpl; by rewrite ?length_insert.
    + unfold recalculateVelocities.
      split; simpl; by rewrite ?length_insert.
Qed.

Lemma ballLoop_wf dt todo g u :
  wf g ->
  match ballLoop dt todo g u with
  | Next g' _ | Return g' => wf g'
  | Abort => False
  end.
Proof.
  revert g u. induction todo as [|i todo IH]; intros g u Hwf; simpl; [done|].
  pose proof (ballStep_wf dt i g u Hwf) as Hs.
  destruct (ballStep dt i g u) as [g1 u1| |]; [|done..]. by apply IH.
Qed.

Lemma reduceVelocities_wf dt g : wf g -> wf (reduceVelocities dt g).
Proof. intros [Hp Hv]. split; simpl; by rewrite ?length_fmap. Qed.

Lemma chargeShot_wf dt g : wf g -> wf (chargeShot dt g).
Proof.
  unfold wf. by destruct (chargeShot_balls dt g) as (_ & -> & -> & _).
Qed.

Lemma mouseButtonReleased_wf px py g : wf g -> wf (mouseButtonReleased px py g).
Proof.
  intros [Hp Hv]. unfold mouseButtonReleased.
  destruct (_ <? _); split; simpl; by rewrite ?length_insert.
Qed.

Lemma update_wf dt g :
  exists g', update dt g = Some g' /\ (wf g -> wf g').
Proof.
  destruct (update_charge dt g) as (g' & Hu & _).
  exists g'. split; [done|]. intros Hwf.
  revert Hu. unfold update, physicLoop.
  destruct (isFreeze g).
  - simpl. intros [= <-]. by apply chargeShot_wf.
  - pose proof (ballLoop_wf dt (seq 0 (length (ballVelocities g))) g ∅ Hwf) as Hl.
    destruct (ballLoop _ _ _ _) as [g1 u1|g1|]; [| |done]; simpl;
      intros [= <-]; auto using chargeShot_wf, reduceVelocities_wf.
Qed.

(** X2.  Whatever the state, every sequence of calls of [update],
    [mouseButtonPressed] and [mouseButtonReleased] returns: the only
    assertion in reach, the one of [Table::init] in the rack reset, never
    fails, since [deinit] comes right before it.  The two arrays keep
    their seven entries. *)
Theorem run_never_aborts es g :
  exists g', run es g = Some g' /\ (wf g -> wf g').
Proof.
  revert g. induction es as [|e es IH]; intros g; simpl; [by eauto|].
  assert (exists g1, handle e g = Some g1 /\ (wf g -> wf g1))
    as (g1 & -> & Hwf1).
  { destruct e as [dt|px py|px py]; simpl.
    - apply update_wf.
    - by eexists.
    - eexists. split; [done|]. apply mouseButtonReleased_wf. }
  simpl. destruct (IH g1) as (g' & Hr & Hwf'). exists g'. auto.
Qed.

(** *** When isFreeze answers true *)

Lemma isFreeze_release px py g :
  isFreeze g = true ->
  ballVelocities (mouseButtonReleased px py g) = ballVelocities g.
Proof.
  unfold isFreeze, mouseButtonReleased. intros Hf.
  destruct (ballVelocities g) as [|v vs] eqn:Hv; simpl in *.
  - by destruct (_ <? _).
  - change (Vector2_length v <? flit (1 # 100)) with (Vector2_length v <? accurance).
    by destruct (Vector2_length v <? accurance).
Qed.

(** X3.  Once [isFreeze] answers [true] (no ball is below the
    accuracy) it does so for good: no sequence of calls moves a ball or
    changes a velocity any more.  [update] skips the physics step,
    friction included, and a release finds the cue ball not below
    [0.01] and shoots nothing. *)
Theorem frozen_for_good es g :
  isFreeze g = true ->
  exists g', run es g = Some g'
    /\ ballPositions g' = ballPositions g
    /\ ballVelocities g' = ballVelocities g
    /\ isFreeze g' = true.
Proof.
  revert g. induction es as [|e es IH]; intros g Hf; simpl; [by eauto|].
  assert (exists g1, handle e g = Some g1
            /\ ballPositions g1 = ballPositions g
            /\ ballVelocities g1 = ballVelocities g) as (g1 & -> & Hp & Hv).
  { destruct e as [dt|px py|px py]; simpl.
    - exists (chargeShot dt g). unfold update, physicLoop. rewrite Hf.
      by destruct (chargeShot_balls dt g) as (_ & -> & -> & _).
    - by eexists.
    - eexists. split; [done|]. split; [|by apply isFreeze_release].
      by destruct (mouseButtonReleased_clear px py g) as (_ & _ & ->). }
  simpl. destruct (IH g1) as (g' & Hr & Hp' & Hv' & Hf').
  { unfold isFreeze in *. by rewrite Hv. }
  exists g'. rewrite Hr, Hp', Hv'. auto.
Qed.

(** *** A tick with one rolling ball *)

Lemma ballLoop_app dt l1 l2 g u :
  ballLoop dt (l1 ++ l2) g u
  = match ballLoop dt l1 g u with
    | Next g' u' => ballLoop dt l2 g' u'
    | stop => stop
    end.
Proof.
  revert g u. induction l1 as [|i l1 IH]; intros g u; simpl; [done|].
  by destruct (ballStep dt i g u).
Qed.

Lemma seq_split (i n : nat) :
  (i < n)%nat -> seq 0 n = seq 0 i ++ [i] ++ seq (S i) (n - S i).
Proof.
  intros Hi. replace n with (i + S (n - S i))%nat at 1 by lia.
  by rewrite seq_app.
Qed.

Lemma reduceVelocities_single dt i g :
  othersSlow i g ->
  ballVelocities (reduceVelocities dt g)
  = <[i := reduceVelocity dt (ballVelocities g !!! i)]> (ballVelocities g).
Proof.
  intros Hs. simpl. apply list_eq. intros j.
  rewrite list_lookup_fmap.
  destruct (decide (j = i)) as [->|Hji].
  - destruct (ballVelocities g !! i) as [v|] eqn:Hv.
    + rewrite list_lookup_insert_eq by (by eapply lookup_lt_Some).
      by rewrite (list_lookup_total_correct _ _ _ Hv).
    + rewrite list_insert_ge by (by apply lookup_ge_None). by rewrite Hv.
  - rewrite list_lookup_insert_ne by done.
    destruct (ballVelocities g !! j) as [v|] eqn:Hv; [|done]. simpl.
    rewrite reduceVelocity_slow; [done|].
    rewrite <- (list_lookup_total_correct _ _ _ Hv).
    apply Hs; [done|]. by eapply lookup_lt_Some.
Qed.

(** The tick when only ball [i] rolls and its turn leaves the other
    velocities alone: the loop is the turn of ball [i], and the
    friction only touches ball [i]. *)
Lemma physicLoop_single dt i g g1 :
  wf g ->
  (i < 7)%nat ->
  othersSlow i g ->
  ballStep dt i g ∅ = Next g1 ∅ ->
  (forall j, j <> i -> ballVelocities g1 !!! j = ballVelocities g !!! j) ->
  physicLoop dt g = Some (reduceVelocities dt g1)
  /\ ballVelocities (reduceVelocities dt g1)
     = <[i := reduceVelocity dt (ballVelocities g1 !!! i)]> (ballVelocities g1).
Proof.
  intros [Hlp Hlv] Hi Hs Hstep Hframe.
  assert (Hwf1 : wf g1).
  { pose proof (ballStep_wf dt i g ∅ (conj Hlp Hlv)) as H. by rewrite Hstep in H. }
  assert (Hs1 : othersSlow i g1).
  { intros j Hj Hlt. rewrite Hframe by done. apply Hs; [done|].
    destruct Hwf1 as [_ Hlv1]. lia. }
  split; [|by apply reduceVelocities_single].
  unfold physicLoop.
  assert (isFreeze g = false) as ->.
  { apply isFreeze_loop_Exists. apply Exists_exists.
    set (j := if decide (i = 0%nat) then 1%nat else 0%nat).
    assert (j <> i /\ (j < length (ballVelocities g))%nat) as [Hj Hlt].
    { subst j. case_decide; lia. }
    exists (ballVelocities g !!! j). split; [|by apply Hs].
    apply list_elem_of_lookup. exists j. by apply list_lookup_lookup_total_lt. }
  rewrite Hlv.
  rewrite (seq_split i 7) by done.
  rewrite ballLoop_app, ballLoop_skip.
  2:{ apply Forall_forall. intros j Hj%elem_of_seq.
      apply slow_not_processed, Hs; lia. }
  rewrite ballLoop_app. cbn [ballLoop]. rewrite Hstep.
  rewrite ballLoop_skip; [done|].
  apply Forall_forall. intros j Hj%elem_of_seq.
  apply slow_not_processed, Hs1; [lia|]. destruct Hwf1 as [_ ->]. lia.
Qed.

Lemma update_of_physicLoop dt g g1 :
  physicLoop dt g = Some g1 ->
  update dt g = Some (chargeShot dt g1)
  /\ ballPositions (chargeShot dt g1) = ballPositions g1
  /\ ballVelocities (chargeShot dt g1) = ballVelocities g1.
Proof.
  intros Hl. unfold update. rewrite Hl.
  by destruct (chargeShot_balls dt g1) as (_ & -> & -> & _).
Qed.

(** X4.  The whole tick when a ball other than the cue ball is the
    only one rolling and its candidate end position passes the pocket
    test: after [update] the ball is parked at [(infinity, infinity)]
    with the zero velocity, the friction leaves that zero alone, and
    every other position and velocity is as before; the rack is not
    reset. *)
Theorem pocket_tick dt i g :
  wf g ->
  (0 < i < 7)%nat ->
  othersSlow i g ->
  slow (float := float) Vector2_zero = true ->
  (Vector2_length (ballVelocities g !!! i) <=? accurance) = false ->
  inPocket (ballEndPos dt i g) = true ->
  exists g',
    update dt g = Some g'
    /\ ballPositions g' = <[i := mkVector2 infinity infinity]> (ballPositions g)
    /\ ballVelocities g' = <[i := Vector2_zero]> (ballVelocities g)
    /\ pocketedOut i g'.
Proof.
  intros Hwf Hi Hs Hz Hv Hpocket.
  set (g1 := placeBall i
       (set_ballVelocities (<[i := mkVector2 (flit 0) (flit 0)]> (ballVelocities g))
          (set_ballPositions
             (<[i := mkVector2 infinity infinity]> (ballPositions g)) g))).
  assert (Hstep : ballStep dt i g ∅ = Next g1 ∅).
  { unfold ballStep. rewrite Hv. simpl orb.
    rewrite bool_decide_eq_false_2 by set_solver.
    fold (ballEndPos dt i g). rewrite Hpocket.
    rewrite bool_decide_eq_false_2 by lia. done. }
  destruct (physicLoop_single dt i g g1 Hwf ltac:(lia) Hs Hstep) as [Hloop Hvel].
  { intros j Hj. simpl. by rewrite list_lookup_total_insert_ne. }
  destruct (update_of_physicLoop dt g _ Hloop) as (Hu & Hp' & Hv').
  eexists. split; [exact Hu|].
  destruct Hwf as [Hlp Hlv].
  assert (HV : ballVelocities (reduceVelocities dt g1)
               = <[i := Vector2_zero]> (ballVelocities g)).
  { rewrite Hvel. simpl.
    rewrite list_lookup_total_insert_eq by lia.
    rewrite list_insert_insert_eq.
    change (mkVector2 (flit 0) (flit 0)) with (Vector2_zero (float := float)).
    by rewrite reduceVelocity_slow. }
  rewrite Hp', Hv', HV. simpl. split; [done|]. split; [done|].
  split; rewrite ?Hp', ?Hv', ?HV; simpl; by rewrite list_lookup_insert_eq by lia.
Qed.

(** X5.  The whole tick when ball [i] is the only one rolling and its
    candidate end position is in no pocket, hits no border and has no
    other ball within two radii: after [update] the ball is at the
    candidate end position [p_i + v_i * dt], its velocity has taken the
    friction of the tick, and every other position and velocity is as
    before. *)
Theorem free_roll_tick dt i g :
  wf g ->
  (i < 7)%nat ->
  othersSlow i g ->
  (Vector2_length (ballVelocities g !!! i) <=? accurance) = false ->
  inPocket (ballEndPos dt i g) = false ->
  hitsBorderX (ballEndPos dt i g) || hitsBorderY (ballEndPos dt i g) = false ->
  findClosestBall g (ballEndPos dt i g) i = i ->
  exists g',
    update dt g = Some g'
    /\ ballPositions g' = <[i := ballEndPos dt i g]> (ballPositions g)
    /\ ballVelocities g'
       = <[i := reduceVelocity dt (ballVelocities g !!! i)]> (ballVelocities g).
Proof.
  intros Hwf Hi Hs Hv Hpocket Hborder Hclosest.
  set (g1 := placeBall i
       (set_ballPositions (<[i := ballEndPos dt i g]> (ballPositions g)) g)).
  assert (Hstep : ballStep dt i g ∅ = Next g1 ∅).
  { unfold ballStep. rewrite Hv. simpl orb.
    rewrite bool_decide_eq_false_2 by set_solver.
    fold (ballEndPos dt i g). rewrite Hpocket.
    pose proof (isBorderCollesion_flag (ballEndPos dt i g) i g) as Hflag.
    rewrite Hborder in Hflag.
    pose proof (isBorderCollesion_miss (ballEndPos dt i g) i g Hflag) as Hmiss.
    destruct (isBorderCollesion (ballEndPos dt i g) i g) as [hit g0].
    simpl in Hflag, Hmiss. subst hit g0.
    by rewrite Hclosest, bool_decide_eq_true_2. }
  destruct (physicLoop_single dt i g g1 Hwf Hi Hs Hstep) as [Hloop Hvel];
    [done|].
  destruct (update_of_physicLoop dt g _ Hloop) as (Hu & Hp' & Hv').
  eexists. split; [exact Hu|]. by rewrite Hp', Hv', Hvel.
Qed.

(** X6.  The whole tick when ball [i] is the only one rolling and its
    candidate end position, in no pocket, passes a border test: after
    [update] no ball has moved, and the velocity of ball [i] is the
    flipped one (x negated on the x test, y on the y test) after the
    friction of the tick; every other velocity is as before. *)
Theorem border_bounce_tick dt i g :
  wf g ->
  (i < 7)%nat ->
  othersSlow i g ->
  (Vector2_length (ballVelocities g !!! i) <=? accurance) = false ->
  inPocket (ballEndPos dt i g) = false ->
  hitsBorderX (ballEndPos dt i g) || hitsBorderY (ballEndPos dt i g) = true ->
  exists g',
    update dt g = Some g'
    /\ ballPositions g' = ballPositions g
    /\ ballVelocities g'
       = <[i := reduceVelocity dt
                  (mkVector2
                     (if hitsBorderX (ballEndPos dt i g)
                      then - x (ballVelocities g !!! i)
                      else x (ballVelocities g !!! i))
                     (if hitsBorderY (ballEndPos dt i g)
                      then - y (ballVelocities g !!! i)
                      else y (ballVelocities g !!! i)))]> (ballVelocities g).
Proof.
  intros Hwf Hi Hs Hv Hpocket Hborder.
  pose proof Hwf as [Hlp Hlv].
  set (w := mkVector2
              (if hitsBorderX (ballEndPos dt i g)
               then - x (ballVelocities g !!! i) else x (ballVelocities g !!! i))
              (if hitsBorderY (ballEndPos dt i g)
               then - y (ballVelocities g !!! i) else y (ballVelocities g !!! i))).
  set (g1 := set_ballVelocities (<[i := w]> (ballVelocities g)) g).
  assert (Hstep : ballStep dt i g ∅ = Next g1 ∅).
  { unfold ballStep. rewrite Hv. simpl orb.
    rewrite bool_decide_eq_false_2 by set_solver.
    fold (ballEndPos dt i g). rewrite Hpocket.
    unfold isBorderCollesion.
    fold (hitsBorderX (ballEndPos dt i g)) (hitsBorderY (ballEndPos dt i g)).
    rewrite Hborder. subst g1 w.
    destruct (hitsBorderX _), (hitsBorderY _); try done; simpl.
    by rewrite list_lookup_total_insert_eq, list_insert_insert_eq by lia. }
  destruct (physicLoop_single dt i g g1 Hwf Hi Hs Hstep) as [Hloop Hvel].
  { intros j Hj. simpl. by rewrite list_lookup_total_insert_ne. }
  destruct (update_of_physicLoop dt g _ Hloop) as (Hu & Hp' & Hv').
  eexists. split; [exact Hu|]. rewrite Hp', Hv', Hvel. simpl.
  split; [done|].
  by rewrite list_lookup_total_insert_eq, list_insert_insert_eq by lia.
Qed.

(** *** The turn of a ball that meets another *)

Lemma findClosestBall_fold_range g e s l acc n :
  Forall (fun i => (i < n)%nat) l ->
  acc.1 = s \/ (acc.1 < n)%nat ->
  (foldl (findClosestBall_step g e s) acc l).1 = s
  \/ ((foldl (findClosestBall_step g e s) acc l).1 < n)%nat.
Proof.
  intros Hl. revert acc. induction Hl as [|i l Hi _ IH]; intros acc Hacc;
    [exact Hacc|].
  cbn [foldl]. apply IH. unfold findClosestBall_step.
  repeat case_match; auto.
Qed.

Lemma findClosestBall_range g e s :
  findClosestBall g e s = s
  \/ (findClosestBall g e s < length (ballPositions g))%nat.
Proof.
  apply findClosestBall_fold_range; [|by left].
  apply Forall_forall. intros i Hi%elem_of_seq. lia.
Qed.

(** X7.  The turn of a processed ball [i] whose candidate end position
    is in no pocket, hits no border and has another ball within two
    radii, whatever the reads of [dir] in [recalculateVelocities]
    find.  With [j] the answer of [findClosestBall] and
    [dtau = (|p_i - p_j| - 2 r) / |v_i|]: [j] is a ball that passed the
    distance test; ball [i] goes to
    [p_i + v_i * dtau + v_i' * (dt - dtau)] and ball [j] to
    [p_j + v_j' * (dt - dtau)], where [v_i'] and [v_j'] are the
    velocities the two balls have after the turn; no other ball moves
    or changes its velocity; both go into the skip set, so the turn of
    ball [j] later in the same tick does nothing. *)
Theorem pair_collision_step dt i g u :
  wf g ->
  (i < 7)%nat ->
  processed i g u = true ->
  inPocket (ballEndPos dt i g) = false ->
  hitsBorderX (ballEndPos dt i g) || hitsBorderY (ballEndPos dt i g) = false ->
  findClosestBall g (ballEndPos dt i g) i <> i ->
  let j := findClosestBall g (ballEndPos dt i g) i in
  let dtau :=
    calculateTimeConflict (separation g i j)
                          (Vector2_length (ballVelocities g !!! i)) in
  exists g',
    ballStep dt i g u = Next g' ({[i; j]} ∪ u)
    /\ (j < 7)%nat
    /\ closeTo g (ballEndPos dt i g) j = true
    /\ wf g'
    /\ ballPositions g' !!! i
       = mkVector2
           (x (ballPositions g !!! i) + x (ballVelocities g !!! i) * dtau
            + x (ballVelocities g' !!! i) * (dt - dtau))
           (y (ballPositions g !!! i) + y (ballVelocities g !!! i) * dtau
            + y (ballVelocities g' !!! i) * (dt - dtau))
    /\ ballPositions g' !!! j
       = mkVector2
           (x (ballPositions g !!! j)
            + x (ballVelocities g' !!! j) * (dt - dtau))
           (y (ballPositions g !!! j)
            + y (ballVelocities g' !!! j) * (dt - dtau))
    /\ (forall k, k <> i -> k <> j ->
          ballPositions g' !!! k = ballPositions g !!! k
          /\ ballVelocities g' !!! k = ballVelocities g !!! k)
    /\ ballStep dt j g' ({[i; j]} ∪ u) = Next g' ({[i; j]} ∪ u).
Proof.
  intros [Hlp Hlv] Hi Hp%negb_true_iff Hpocket Hborder Hj. cbv zeta.
  unfold separation, closeTo.
  set (j := findClosestBall g (ballEndPos dt i g) i) in *.
  assert (Hj7 : (j < 7)%nat).
  { destruct (findClosestBall_range g (ballEndPos dt i g) i); [done|lia]. }
  assert (Hnear : (Vector2_length (Vector2_sub (ballEndPos dt i g)
                                      (ballPositions g !!! j))
                   <? flit 2 * radius) = true).
  { by destruct (findClosestBall_near g (ballEndPos dt i g) i). }
  unfold ballStep at 1. rewrite Hp. fold (ballEndPos dt i g). rewrite Hpocket.
  pose proof (isBorderCollesion_flag (ballEndPos dt i g) i g) as Hflag.
  rewrite Hborder in Hflag.
  pose proof (isBorderCollesion_miss (ballEndPos dt i g) i g Hflag) as Hmiss.
  destruct (isBorderCollesion (ballEndPos dt i g) i g) as [hit g0].
  simpl in Hflag, Hmiss. subst hit g0. fold j.
  rewrite bool_decide_eq_false_2 by done.
  eexists. split; [reflexivity|].
  split; [done|]. split; [done|].
  destruct (recalculateVelocities_frame i j g)
    as (_ & _ & _ & Hframe & Hlen & Hothers).
  split; [|split; [|split; [|split]]].
  - split;
      cbn [placeBall set_table set_ballPositions ballPositions ballVelocities];
      rewrite ?length_insert; congruence.
  - cbn [placeBall set_table set_ballPositions ballPositions ballVelocities].
    rewrite Hframe.
    rewrite list_lookup_total_insert_ne by done.
    by rewrite list_lookup_total_insert_eq by lia.
  - cbn [placeBall set_table set_ballPositions ballPositions ballVelocities].
    rewrite Hframe.
    rewrite list_lookup_total_insert_eq by (rewrite length_insert; lia).
    by rewrite list_lookup_total_insert_ne by done.
  - intros k Hki Hkj.
    cbn [placeBall set_table set_ballPositions ballPositions ballVelocities].
    rewrite Hframe. split; [|by apply Hothers].
    by rewrite !list_lookup_total_insert_ne by done.
  - match goal with |- ballStep dt j ?g1 ?u1 = _ =>
      apply (ballStep_skip dt j g1 u1) end.
    unfold processed. rewrite bool_decide_eq_true_2 by set_solver.
    by rewrite orb_true_r.
Qed.

(** *** The scene *)

Lemma mirrored_at g : mirrored g <-> forall k, mirroredAt k g.
Proof. unfold mirrored, mirroredAt. split; intros H k; apply H. Qed.

Lemma mirroredAt_handle k g :
  mirroredAt k g -> (k < length (ballPositions g))%nat -> handleAt k g.
Proof.
  intros Hm Hk. destruct (lookup_lt_is_Some_2 _ _ Hk) as [p Hp].
  destruct (Hm p Hp) as [r Hr]. by eexists.
Qed.

Lemma placeBall_at i g :
  ((i < length (ballPositions g))%nat -> handleAt i g) ->
  mirroredAt i (placeBall i g).
Proof.
  intros Hh p Hp. simpl in *.
  destruct (Hh (lookup_lt_Some _ _ _ Hp)) as [[r q] Hm].
  exists r. rewrite list_lookup_insert_eq by (by eapply lookup_lt_Some).
  rewrite (list_lookup_total_correct _ _ _ Hm),
          (list_lookup_total_correct _ _ _ Hp).
  by destruct p.
Qed.

Lemma placeBall_other i k g :
  k <> i -> mirroredAt k g -> mirroredAt k (placeBall i g).
Proof.
  intros Hk Hm p Hp. simpl in *. rewrite list_lookup_insert_ne by done. auto.
Qed.

Lemma placeBall_handle i k g : handleAt k g -> handleAt k (placeBall i g).
Proof.
  intros [m Hm]. unfold handleAt. simpl.
  destruct (decide (k = i)) as [->|Hk].
  - rewrite list_lookup_insert_eq by (by eapply lookup_lt_Some).
    rewrite (list_lookup_total_correct _ _ _ Hm). simpl. by eexists.
  - rewrite list_lookup_insert_ne by done. by eexists.
Qed.

Lemma set_ballPositions_other i k q g :
  k <> i -> mirroredAt k g ->
  mirroredAt k (set_ballPositions (<[i := q]> (ballPositions g)) g).
Proof.
  intros Hk Hm p. simpl. rewrite list_lookup_insert_ne by done. apply Hm.
Qed.

Lemma init_mirrored g g' : init g = Some g' -> mirrored g'.
Proof.
  unfold init. destruct (Table_init (table g)) as [t|] eqn:Ht; [|done].
  intros [= <-] k p Hp. cbn [ballPositions table] in *.
  rewrite (Table_init_balls _ _ Ht), list_lookup_fmap, Hp. by exists radius.
Qed.

Lemma ballStep_mirrored dt i g u :
  mirrored g ->
  match ballStep dt i g u with
  | Next g' _ | Return g' => mirrored g'
  | Abort => False
  end.
Proof.
  intros Hm. unfold ballStep.
  destruct (_ || _); [done|].
  destruct (inPocket _).
  - destruct (bool_decide (i = 0%nat)).
    + destruct (init (deinit g)) as [g'|] eqn:Hi.
      * by eapply init_mirrored.
      * destruct (init_deinit g) as [t Ht]. congruence.
    + apply mirrored_at. intros k. destruct (decide (k = i)) as [->|Hk].
      * apply placeBall_at. simpl. rewrite length_insert.
        by apply mirroredAt_handle, mirrored_at.
      * apply placeBall_other; [done|].
        apply (set_ballPositions_other i k _ g Hk). by apply mirrored_at.
  - destruct (isBorderCollesion _ i g) as [hit g1] eqn:Hb.
    assert (table g1 = table g /\ ballPositions g1 = ballPositions g)
      as [Ht Hp].
    { revert Hb. unfold isBorderCollesion. intros [= _ <-].
      by repeat case_match. }
    assert (Hm1 : mirrored g1).
    { unfold mirrored. by rewrite Ht, Hp. }
    clear Hm Ht Hp Hb.
    destruct hit; [done|].
    cbv zeta.
    match goal with |- context [bool_decide (?j0 = i)] => set (j := j0) end.
    destruct (bool_decide (j = i)).
    + apply mirrored_at. intros k. destruct (decide (k = i)) as [->|Hk].
      * apply placeBall_at. simpl. rewrite length_insert.
        by apply mirroredAt_handle, mirrored_at.
      * apply placeBall_other; [done|].
        apply (set_ballPositions_other i k _ g1 Hk). by apply mirrored_at.
    + clearbody j.
      set (g2 := recalculateVelocities i j g1).
      assert (Hm2 : mirrored g2) by done.
      clearbody g2.
      match goal with |- mirrored (placeBall j (placeBall i ?g)) =>
        set (g4 := g) end.
      assert (Hlen : length (ballPositions g4) = length (ballPositions g2))
        by (subst g4; simpl; by rewrite !length_insert).
      assert (Hh : forall k, (k < length (ballPositions g2))%nat -> handleAt k g4).
      { intros k Hk. apply (mirroredAt_handle k g2); [|done].
        by apply mirrored_at. }
      apply mirrored_at. intros k. destruct (decide (k = j)) as [->|Hkj].
      * apply placeBall_at. intros Hk. apply placeBall_handle, Hh.
        rewrite <- Hlen. exact Hk.
      * apply placeBall_other; [done|].
        destruct (decide (k = i)) as [->|Hki].
        -- apply placeBall_at. rewrite Hlen. auto.
        -- apply placeBall_other; [done|]. subst g4.
           intros p. simpl. rewrite !list_lookup_insert_ne by done.
           by apply mirrored_at.
Qed.

Lemma ballLoop_mirrored dt todo g u :
  mirrored g ->
  match ballLoop dt todo g u with
  | Next g' _ | Return g' => mirrored g'
  | Abort => False
  end.
Proof.
  revert g u. induction todo as [|i todo IH]; intros g u Hm; simpl; [done|].
  pose proof (ballStep_mirrored dt i g u Hm) as Hs.
  destruct (ballStep dt i g u) as [g1 u1| |]; [|done..]. by apply IH.
Qed.

Lemma update_mirrored dt g :
  mirrored g -> exists g', update dt g = Some g' /\ mirrored g'.
Proof.
  intros Hm.
  assert (exists g1, physicLoop dt g = Some g1 /\ mirrored g1) as (g1 & Hl & Hm1).
  { unfold physicLoop. destruct (isFreeze g); [by eauto|].
    pose proof (ballLoop_mirrored dt (seq 0 (length (ballVelocities g))) g ∅ Hm)
      as Hl.
    destruct (ballLoop _ _ _ _) as [g1 u1|g1|]; [| |done]; eauto. }
  exists (chargeShot dt g1). unfold update. rewrite Hl. split; [done|].
  unfold mirrored. by destruct (chargeShot_balls dt g1) as (-> & -> & _).
Qed.

(** X8.  The scene follows the positions: when every ball mesh is
    placed where [ballPositions] has the ball (as [init] leaves it),
    it is so again after every sequence of calls.  Each write to
    [ballPositions[k]] in [physicLoop] comes with a [placeMesh] of
    [balls[k]] at the new position (the sentinel of a pocketed ball
    included), and the rack reset re-creates the meshes at the
    template positions. *)
Theorem scene_mirrors_positions es g :
  mirrored g ->
  exists g', run es g = Some g' /\ mirrored g'.
Proof.
  revert g. induction es as [|e es IH]; intros g Hm; simpl; [by eauto|].
  destruct e as [dt|px py|px py]; simpl.
  - destruct (update_mirrored dt g Hm) as (g1 & -> & Hm1). simpl. by apply IH.
  - by apply IH.
  - apply IH. unfold mirrored, mouseButtonReleased.
    by destruct (_ <? _).
Qed.

(** *** The balls at rest *)

Lemma update_at_rest dt g :
  length (ballVelocities g) = 7%nat ->
  Forall (fun v => slow v = true) (ballVelocities g) ->
  update dt g = Some (chargeShot dt g).
Proof.
  intros Hlen Hall. unfold update, physicLoop.
  assert (isFreeze g = false) as ->.
  { apply isFreeze_loop_Exists. destruct (ballVelocities g) as [|v vs]; [done|].
    left. by inversion Hall. }
  rewrite ballLoop_skip.
  - by rewrite reduceVelocities_slow.
  - apply Forall_forall. intros i Hi%elem_of_seq.
    apply slow_not_processed.
    by apply (Forall_lookup_total_1 _ _ i) in Hall; [|lia].
Qed.

Lemma run_app (es1 es2 : list (Event float)) g g1 :
  run es1 g = Some g1 -> run (es1 ++ es2) g = run es2 g1.
Proof.
  revert g. induction es1 as [|e es1 IH]; intros g; simpl.
  - by intros [= ->].
  - destruct (handle e g) as [g2|]; [|done]. simpl. apply IH.
Qed.

End Lifecycle.

(** ** More of the program, in exact arithmetic *)

Section MoreExact.
Context {DR : DeadReads R}.

Local Open Scope R_scope.

Implicit Types (g : Game R) (v d p : Vector2 R).

Lemma Rltb_ge (a b : R) : fltb a b = false <-> b <= a.
Proof.
  unfold fltb. simpl. unfold Rcmp.
  destruct (total_order_T a b) as [[?|?]|?]; split; intros; try done; lra.
Qed.

Lemma Rgtb_gt (a b : R) : fgtb a b = true <-> b < a.
Proof.
  unfold fgtb. simpl. unfold Rcmp.
  destruct (total_order_T a b) as [[?|?]|?]; split; intros; try done; lra.
Qed.

Lemma Rgtb_le (a b : R) : fgtb a b = false <-> a <= b.
Proof.
  unfold fgtb. simpl. unfold Rcmp.
  destruct (total_order_T a b) as [[?|?]|?]; split; intros; try done; lra.
Qed.

Lemma Rgeb_lt (a b : R) : fgeb a b = false <-> a < b.
Proof.
  unfold fgeb. simpl. unfold Rcmp.
  destruct (total_order_T a b) as [[?|?]|?]; split; intros; try done; lra.
Qed.

Lemma Rabs_le_iff (a b : R) : Rabs a <= b <-> - b <= a <= b.
Proof. unfold Rabs. destruct (Rcase_abs a); lra. Qed.

(** *** The vectors *)

Lemma Vector2_length_pos v : v <> mkVector2 0 0 -> 0 < Vector2_length v.
Proof.
  destruct v as [vx vy]. intros Hv. unfold Vector2_length, Vector2_norm. simpl.
  apply sqrt_lt_R0.
  destruct (Req_dec vx 0) as [->|]; [|nra].
  destruct (Req_dec vy 0) as [->|]; [by destruct Hv|nra].
Qed.

Lemma Vector2_length_square v :
  Vector2_length v * Vector2_length v = Vector2_norm v.
Proof.
  unfold Vector2_length. apply sqrt_sqrt.
  destruct v. unfold Vector2_norm. simpl. nra.
Qed.

(** X9.  For a vector that is not the origin, [normolize] gives a
    vector of length 1 in the same direction: scaling it back by the
    length, with either [operator *] or with [operator *=], gives the
    vector again, and its dot product with the vector is the length. *)
Theorem Vector2_normolize_round_trip v :
  v <> mkVector2 0 0 ->
  Vector2_length (Vector2_normolize v) = 1
  /\ Vector2_scale (Vector2_normolize v) (Vector2_length v) = v
  /\ Vector2_scale_left (Vector2_length v) (Vector2_normolize v) = v
  /\ Vector2_mul_assign (Vector2_normolize v) (Vector2_length v) = v
  /\ Vector2_dot (Vector2_normolize v) v = Vector2_length v.
Proof.
  intros Hv. pose proof (Vector2_length_pos v Hv) as Hl.
  split.
  { unfold Vector2_length at 1. rewrite Vector2_normolize_unit by done.
    apply sqrt_1. }
  pose proof (Vector2_length_square v) as Hsq.
  revert Hl Hsq.
  unfold Vector2_scale_left, Vector2_scale, Vector2_mul_assign,
    Vector2_normolize, Vector2_dot.
  generalize (Vector2_length v). intros l Hl Hsq.
  destruct v as [vx vy]. unfold Vector2_norm in Hsq. simpl in *.
  split_and!; try (f_equal; field; lra).
  transitivity ((vx * vx + vy * vy) / l); [field; lra|].
  rewrite <- Hsq. field. lra.
Qed.

(** *** The friction *)

Lemma frictionStep (dt : R) :
  fmul (fmul friction dt) (flit (981 # 100)) = 3 / 100 * dt * (981 / 100)
  /\ fmul (fmul (fneg friction) dt) (flit (981 # 100))
     = - (3 / 100 * dt * (981 / 100)).
Proof. unfold friction. simpl. unfold Q2R. simpl. split; lra. Qed.

Lemma reduceVelocity_components (dt : R) v :
  0 <= dt ->
  slow v = false ->
  reduceVelocity dt v
  = mkVector2 (rub (3 / 100 * dt * (981 / 100)) (x v))
              (rub (3 / 100 * dt * (981 / 100)) (y v)).
Proof.
  intros Hdt Hs. set (k := 3 / 100 * dt * (981 / 100)).
  assert (Hk : 0 <= k) by (subst k; nra).
  unfold reduceVelocity. unfold slow in Hs. rewrite Hs.
  destruct (frictionStep dt) as [-> ->]. fold k.
  rewrite !flit_R_0. destruct v as [vx vy]. cbn [x y].
  f_equal; unfold rub.
  - destruct (fgeb vx 0) eqn:E1.
    + apply Rgeb_ge in E1. destruct (Rle_dec 0 vx); [|lra].
      rewrite andb_true_r, andb_false_r, orb_false_r. simpl fsub.
      unfold Rmax. destruct (fltb (vx - k) 0) eqn:E2.
      * apply Rltb_lt in E2. destruct (Rle_dec _ _); lra.
      * apply Rltb_ge in E2. destruct (Rle_dec _ _); lra.
    + apply Rgeb_lt in E1. destruct (Rle_dec 0 vx); [lra|].
      rewrite andb_true_r, andb_false_r, orb_false_l. simpl fsub.
      unfold Rmin. destruct (fgtb (vx - - k) 0) eqn:E2.
      * apply Rgtb_gt in E2. destruct (Rle_dec _ _); lra.
      * apply Rgtb_le in E2. destruct (Rle_dec _ _); lra.
  - destruct (fgeb vy 0) eqn:E1.
    + apply Rgeb_ge in E1. destruct (Rle_dec 0 vy); [|lra].
      rewrite andb_true_r, andb_false_r, orb_false_r. simpl fsub.
      unfold Rmax. destruct (fltb (vy - k) 0) eqn:E2.
      * apply Rltb_lt in E2. destruct (Rle_dec _ _); lra.
      * apply Rltb_ge in E2. destruct (Rle_dec _ _); lra.
    + apply Rgeb_lt in E1. destruct (Rle_dec 0 vy); [lra|].
      rewrite andb_true_r, andb_false_r, orb_false_l. simpl fsub.
      unfold Rmin. destruct (fgtb (vy - - k) 0) eqn:E2.
      * apply Rgtb_gt in E2. destruct (Rle_dec _ _); lra.
      * apply Rgtb_le in E2. destruct (Rle_dec _ _); lra.
Qed.

Lemma rub_shrinks (k c : R) :
  0 <= k -> Rabs (rub k c) <= Rabs c /\ 0 <= c * rub k c.
Proof.
  intros Hk. unfold rub, Rmax, Rmin, Rabs.
  destruct (Rle_dec 0 c); repeat destruct (Rle_dec _ _);
    repeat destruct (Rcase_abs _); split; nra.
Qed.

(** X10.  The friction on one velocity that is not below the accuracy,
    for a tick [dt >= 0]: each component moves by
    [k = 0.03 * dt * 9.81] towards zero and stops at zero when that
    would pass it (a component at zero stays there); so no component
    grows in absolute value or changes its sign. *)
Theorem reduceVelocity_rub (dt : R) v :
  0 <= dt ->
  slow v = false ->
  let k := 3 / 100 * dt * (981 / 100) in
  reduceVelocity dt v = mkVector2 (rub k (x v)) (rub k (y v))
  /\ Rabs (x (reduceVelocity dt v)) <= Rabs (x v)
  /\ Rabs (y (reduceVelocity dt v)) <= Rabs (y v)
  /\ 0 <= x v * x (reduceVelocity dt v)
  /\ 0 <= y v * y (reduceVelocity dt v).
Proof.
  intros Hdt Hs k.
  assert (Hk : 0 <= k) by (subst k; nra).
  split; [by apply reduceVelocity_components|].
  rewrite reduceVelocity_components by done. cbn [x y]. fold k.
  destruct (rub_shrinks k (x v) Hk), (rub_shrinks k (y v) Hk). auto.
Qed.

(** X11.  [reduceVelocities] with a tick [dt >= 0] moves no ball, keeps
    the number of velocities, and makes no ball faster: the squared
    speed [norm()] and the speed [length()] of every ball after it are
    at most what they were. *)
Theorem reduceVelocities_slows (dt : R) g :
  0 <= dt ->
  ballPositions (reduceVelocities dt g) = ballPositions g
  /\ length (ballVelocities (reduceVelocities dt g)) = length (ballVelocities g)
  /\ forall i,
       Vector2_norm (ballVelocities (reduceVelocities dt g) !!! i)
       <= Vector2_norm (ballVelocities g !!! i)
       /\ Vector2_length (ballVelocities (reduceVelocities dt g) !!! i)
          <= Vector2_length (ballVelocities g !!! i).
Proof.
  intros Hdt. split; [done|]. split; [simpl; by rewrite length_fmap|].
  intros i.
  assert (Hn : Vector2_norm (ballVelocities (reduceVelocities dt g) !!! i)
               <= Vector2_norm (ballVelocities g !!! i)).
  { simpl ballVelocities. rewrite !list_lookup_total_alt, list_lookup_fmap.
    destruct (ballVelocities g !! i) as [v|]; simpl; [|lra].
    destruct (slow v) eqn:Hs; [rewrite reduceVelocity_slow by done; lra|].
    rewrite reduceVelocity_components by done.
    assert (Hk : 0 <= 3 / 100 * dt * (981 / 100)) by nra.
    destruct (rub_shrinks _ (x v) Hk) as [Hx _],
             (rub_shrinks _ (y v) Hk) as [Hy _].
    unfold Vector2_norm. cbn [x y].
    apply Rsqr_le_abs_1 in Hx, Hy. unfold Rsqr in *. lra. }
  split; [exact Hn|]. by apply sqrt_le_1_alt.
Qed.

(** *** The closest ball *)

Lemma reach_R : fmul (flit 2) radius = 6 / 10.
Proof. unfold radius. simpl. unfold Q2R. simpl. lra. Qed.

Lemma findClosestBall_step_closest g e (s a : nat) acc :
  closestSoFar g e s a acc ->
  closestSoFar g e s (S a) (findClosestBall_step g e s acc a).
Proof.
  intros HI. unfold findClosestBall_step.
  destruct (bool_decide_reflect (a = s)) as [->|Has].
  { destruct HI as [(? & ? & Hall)|(? & ? & ? & ? & ? & Hall)]; [left|right];
      split_and!; auto; try lia; intros i Hi His; apply Hall; lia. }
  fold (closeTo g e a) (separation g s a).
  destruct (closeTo g e a) eqn:Hnear.
  - destruct (fltb (separation g s a) acc.2) eqn:Hlt.
    + apply Rltb_lt in Hlt. right. cbn [fst snd].
      destruct HI as [(? & H46 & Hall)|(? & ? & ? & Hd & ? & Hall)].
      * rewrite H46 in Hlt. split_and!; auto; try lra.
        intros i Hi His Hni.
        destruct (decide (i = a)) as [->|]; [split; [lra|lia]|].
        assert (46 <= separation g s i) by (apply Hall; auto; lia).
        split; lra.
      * split_and!; auto; try lra.
        intros i Hi His Hni.
        destruct (decide (i = a)) as [->|]; [split; [lra|lia]|].
        destruct (Hall i) as [? _]; auto; [lia|]. split; lra.
    + apply Rltb_ge in Hlt.
      destruct HI as [(? & H46 & Hall)|(? & ? & ? & Hd & ? & Hall)]; [left|right].
      * split_and!; auto. intros i Hi His Hni.
        destruct (decide (i = a)) as [->|]; [lra|]. apply Hall; auto; lia.
      * split_and!; auto; try lia.
        intros i Hi His Hni.
        destruct (decide (i = a)) as [->|]; [split; [lra|lia]|].
        apply Hall; auto; lia.
  - destruct HI as [(? & ? & Hall)|(? & ? & ? & ? & ? & Hall)]; [left|right];
      split_and!; auto; try lia; intros i Hi His Hni;
      (destruct (decide (i = a)) as [->|];
       [congruence | apply Hall; auto; lia]).
Qed.

Lemma findClosestBall_fold_closest g e (s n a : nat) acc :
  closestSoFar g e s a acc ->
  closestSoFar g e s (a + n)
    (foldl (findClosestBall_step g e s) acc (seq a n)).
Proof.
  revert a acc. induction n as [|n IH]; intros a acc HI; simpl.
  - by rewrite Nat.add_0_r.
  - replace (a + S n)%nat with (S a + n)%nat by lia.
    by apply IH, findClosestBall_step_closest.
Qed.

(** X12.  What [findClosestBall] answers for the subject [s] and the
    candidate end position [e].  Call a ball close when it is not [s]
    and closer than two radii ([0.6]) to [e].  The answer is [s]
    itself exactly when no close ball is nearer than
    [infinity = 46] to the position the subject has before the tick;
    otherwise it is a close ball, nearer than 46 to that position,
    nearest to it among the close balls, and the first of them in
    index order among those at the same distance.  The distance that
    ranks the candidates is taken from the position before the tick,
    not from [e]. *)
Theorem findClosestBall_closest g e (s : nat) :
  let j := findClosestBall g e s in
  (j = s
   /\ forall i, (i < length (ballPositions g))%nat -> i <> s ->
        closeTo g e i = true -> 46 <= separation g s i)
  \/ (j <> s /\ (j < length (ballPositions g))%nat
      /\ closeTo g e j = true
      /\ separation g s j < 46
      /\ forall i, (i < length (ballPositions g))%nat -> i <> s ->
           closeTo g e i = true ->
           separation g s j <= separation g s i
           /\ (separation g s i = separation g s j -> (j <= i)%nat)).
Proof.
  cbv zeta. unfold findClosestBall.
  assert (H0 : closestSoFar g e s 0 (s, infinity)).
  { left. split_and!; [done|apply infinity_R|]. intros i Hi. lia. }
  pose proof (findClosestBall_fold_closest g e s (length (ballPositions g)) 0
                (s, infinity) H0) as HI.
  simpl plus in HI.
  destruct HI as [(Hj & _ & Hall)|(Hj & Hlt & Hn & Hd & H46 & Hall)].
  - by left.
  - right. rewrite Hd in H46. split_and!; try done.
    intros i Hi His Hni. rewrite <- Hd. by apply Hall.
Qed.

(** *** The conflict time *)

(** X15.  The conflict time of [physicLoop]: for a subject at [p]
    with a velocity [v] that is not zero and a partner at [distance],
    [dtau = (distance - 2 r) / |v|] puts the subject at
    [p + v * dtau], which is [|distance - 0.6|] away from [p]; [dtau] is
    not negative exactly when the two balls are at least two radii
    apart, so for balls that overlap already the subject is taken
    backwards. *)
Theorem conflict_position p v (distance : R) :
  v <> mkVector2 0 0 ->
  let dtau := calculateTimeConflict distance (Vector2_length v) in
  let conflictSubjectPos := mkVector2 (x p + x v * dtau) (y p + y v * dtau) in
  Vector2_length (Vector2_sub conflictSubjectPos p) = Rabs (distance - 6 / 10)
  /\ (6 / 10 <= distance <-> 0 <= dtau).
Proof.
  intros Hv. cbv zeta. pose proof (Vector2_length_pos v Hv) as Hl.
  pose proof (Vector2_length_square v) as Hsq.
  revert Hl Hsq. generalize (Vector2_length v). intros l Hl Hsq.
  unfold calculateTimeConflict. rewrite reach_R. simpl fsub. simpl fdiv.
  split.
  - unfold Vector2_length, Vector2_norm, Vector2_sub. simpl.
    destruct v as [vx vy]. unfold Vector2_norm in Hsq. simpl in *.
    replace ((x p + vx * ((distance - 6 / 10) / l) - x p)
             * (x p + vx * ((distance - 6 / 10) / l) - x p)
             + (y p + vy * ((distance - 6 / 10) / l) - y p)
               * (y p + vy * ((distance - 6 / 10) / l) - y p))
      with ((distance - 6 / 10)²).
    + apply sqrt_Rsqr_abs.
    + unfold Rsqr.
      transitivity ((distance - 6 / 10) * (distance - 6 / 10)
                    * (vx * vx + vy * vy) / (l * l)); [|field; lra].
      rewrite <- Hsq. field. lra.
  - split; intros H.
    + apply Rmult_le_pos; [lra|]. left. by apply Rinv_0_lt_compat.
    + destruct (Rle_dec (6 / 10) distance); [done|].
      assert ((distance - 6 / 10) / l < 0); [|lra].
      unfold Rdiv. pose proof (Rinv_0_lt_compat l Hl). nra.
Qed.

(** *** The pockets *)

Lemma length_bounds (a b : Vector2 R) (r : R) :
  Vector2_length (Vector2_sub a b) <= r ->
  Rabs (x a - x b) <= r /\ Rabs (y a - y b) <= r.
Proof.
  unfold Vector2_length, Vector2_norm, Vector2_sub. simpl. intros H.
  set (dx := x a - x b) in *. set (dy := y a - y b) in *.
  assert (Hx : Rabs dx <= sqrt (dx * dx + dy * dy)).
  { rewrite <- sqrt_Rsqr_abs. apply sqrt_le_1_alt. unfold Rsqr. nra. }
  assert (Hy : Rabs dy <= sqrt (dx * dx + dy * dy)).
  { rewrite <- sqrt_Rsqr_abs. apply sqrt_le_1_alt. unfold Rsqr. nra. }
  lra.
Qed.

(** X17.  [inPocket] answers [true] exactly for a position within
    [pocketRadius + radius / 4 = 0.475] of one of the six pockets; such
    a position lies along one of the two long rails,
    [3.525 <= |y| <= 4.475] and [|x| <= 7.975]: no ball is pocketed in
    the middle of the table. *)
Theorem inPocket_near_rail p :
  (inPocket p = true <->
   exists q, q ∈ pocketsPositions (float := R)
             /\ Vector2_length (Vector2_sub p q) <= 19 / 40)
  /\ (inPocket p = true ->
      141 / 40 <= Rabs (y p) <= 179 / 40 /\ Rabs (x p) <= 319 / 40).
Proof.
  assert (Hiff : inPocket p = true <->
            exists q, q ∈ pocketsPositions (float := R)
                      /\ Vector2_length (Vector2_sub p q) <= 19 / 40).
  { unfold inPocket. rewrite existsb_exists.
    assert (Hr : fadd pocketRadius (fdiv radius (flit 4)) = 19 / 40).
    { unfold pocketRadius, radius. simpl. unfold Q2R. simpl. lra. }
    rewrite Hr. split; intros (q & Hq & Hl); exists q.
    - split; [by apply list_elem_of_In|]. by apply Rleb_le.
    - split; [by apply list_elem_of_In|]. by apply Rleb_le. }
  split; [exact Hiff|].
  intros (q & Hq & Hl)%Hiff.
  apply length_bounds in Hl. destruct Hl as [Hx Hy].
  apply Rabs_le_iff in Hx, Hy.
  unfold pocketsPositions, width, height in Hq.
  repeat (apply elem_of_cons in Hq; destruct Hq as [->|Hq]);
    [..|by apply elem_of_nil in Hq];
    revert Hx Hy; simpl; unfold Q2R; simpl; intros Hx Hy;
    (split; [split|]); unfold Rabs; destruct (Rcase_abs _); lra.
Qed.

(** *** The charging and the shot *)

Lemma elapsed_nonneg (dts : list R) :
  Forall (fun dt => 0 <= dt) dts -> 0 <= elapsed dts.
Proof. induction 1; unfold elapsed in *; simpl; lra. Qed.

(** X18.  While the button is held, the charge adds up over the ticks
    and saturates: after ticks [dts], none negative, from a progress in
    [[0, 1]], the progress is [min(progress + sum of dts, 1)], whatever
    the balls do meanwhile; the flag stays set. *)
Theorem charge_accumulates (dts : list R) g :
  isChargingShot g = true ->
  Forall (fun dt => 0 <= dt) dts ->
  0 <= shotChargeProgress g <= 1 ->
  exists g',
    run (Update <$> dts) g = Some g'
    /\ isChargingShot g' = true
    /\ shotChargeProgress g' = Rmin (shotChargeProgress g + elapsed dts) 1.
Proof.
  intros Hc Hall. revert g Hc.
  induction Hall as [|dt dts Hdt Hall IH]; intros g Hc Hp.
  - exists g. simpl. split; [done|]. split; [done|].
    unfold Rmin. destruct (Rle_dec _ _); lra.
  - rewrite fmap_cons. cbn [run handle elapsed foldr].
    destruct (update_charge dt g) as (g1 & -> & Hc1 & Hp1).
    rewrite Hc in Hc1, Hp1. rewrite charge_R in Hp1. simpl.
    destruct (IH g1 Hc1) as (g' & Hr & Hc' & Hp').
    { rewrite Hp1. unfold Rmin. destruct (Rle_dec _ _); lra. }
    exists g'. split; [done|]. split; [done|].
    rewrite Hp', Hp1. fold (elapsed dts).
    pose proof (elapsed_nonneg dts Hall).
    unfold Rmin. repeat destruct (Rle_dec _ _); lra.
Qed.

Lemma charging_at_rest (dts : list R) g :
  length (ballVelocities g) = 7%nat ->
  Forall (fun v => slow v = true) (ballVelocities g) ->
  isChargingShot g = true ->
  Forall (fun dt => 0 <= dt) dts ->
  0 <= shotChargeProgress g <= 1 ->
  run (Update <$> dts) g
  = Some (mkGame (table g) true (Rmin (shotChargeProgress g + elapsed dts) 1)
                 (ballPositions g) (ballVelocities g)).
Proof.
  intros Hlen Hs Hc Hall. revert g Hlen Hs Hc.
  induction Hall as [|dt dts Hdt Hall IH]; intros g Hlen Hs Hc Hp.
  - simpl. destruct g as [t c q P V]. simpl in *. subst c. do 2 f_equal.
    unfold Rmin. destruct (Rle_dec _ _); lra.
  - rewrite fmap_cons. cbn [run handle].
    rewrite update_at_rest by done. cbn [mbind option_bind].
    unfold chargeShot. rewrite Hc, charge_R.
    rewrite IH; cbn [ballVelocities shotChargeProgress isChargingShot
                     table ballPositions]; try done.
    + do 2 f_equal. pose proof (elapsed_nonneg dts Hall).
      change (elapsed (dt :: dts)) with (dt + elapsed dts).
      unfold Rmin. repeat destruct (Rle_dec _ _); lra.
    + unfold Rmin. destruct (Rle_dec _ _); lra.
Qed.

(** X19.  A whole shot on balls at rest: press, hold over ticks [dts]
    (none negative), release at a point [(qx, qy)] that is not the
    position of the cue ball.  No ball has moved; the cue ball leaves
    towards the point at the speed [6 * min(progress + sum of dts, 1)],
    [progress] being what was left before the press (the press does not
    reset it); no other velocity changes, and the charging state is
    cleared. *)
Theorem full_shot (px py qx qy : R) (dts : list R) g :
  wf g ->
  Forall (fun v => slow v = true) (ballVelocities g) ->
  Forall (fun dt => 0 <= dt) dts ->
  0 <= shotChargeProgress g <= 1 ->
  mkVector2 qx qy <> ballPositions g !!! 0%nat ->
  exists g',
    run (MouseButtonPressed px py :: (Update <$> dts)
           ++ [MouseButtonReleased qx qy]) g = Some g'
    /\ ballPositions g' = ballPositions g
    /\ ballVelocities g' !!! 0%nat
       = Vector2_scale
           (Vector2_normolize
              (Vector2_sub (mkVector2 qx qy) (ballPositions g !!! 0%nat)))
           (6 * Rmin (shotChargeProgress g + elapsed dts) 1)
    /\ Vector2_length (ballVelocities g' !!! 0%nat)
       = 6 * Rmin (shotChargeProgress g + elapsed dts) 1
    /\ (forall i, i <> 0%nat -> ballVelocities g' !!! i = ballVelocities g !!! i)
    /\ isChargingShot g' = false
    /\ shotChargeProgress g' = 0.
Proof.
  intros [Hlp Hlv] Hs Hall Hp Hq.
  set (c := Rmin (shotChargeProgress g + elapsed dts) 1).
  assert (Hc : 0 <= c).
  { pose proof (elapsed_nonneg dts Hall). subst c.
    unfold Rmin. destruct (Rle_dec _ _); lra. }
  set (g1 := mkGame (table g) true c (ballPositions g) (ballVelocities g)).
  assert (Hrun : run (MouseButtonPressed px py :: (Update <$> dts)
                        ++ [MouseButtonReleased qx qy]) g
                 = Some (mouseButtonReleased qx qy g1)).
  { cbn [run handle mbind option_bind].
    rewrite (run_app _ _ _ g1); [done|].
    by rewrite (charging_at_rest dts (mouseButtonPressed px py g)). }
  assert (Hslow0 : fltb (Vector2_length (ballVelocities g1 !!! 0%nat))
                        (flit (1 # 100)) = true).
  { apply (Forall_lookup_total_1 _ _ 0%nat) in Hs; [exact Hs|lia]. }
  assert (Hwf1 : wf g1) by done.
  pose proof (mouseButtonReleased_launch qx qy g1 Hwf1 Hslow0) as Hl.
  destruct (mouseButtonReleased_clear qx qy g1) as (Hcl & Hpr & Hpos).
  assert (Himp : fmul impulse (shotChargeProgress g1) = 6 * c).
  { unfold impulse. simpl. unfold Q2R. simpl. lra. }
  exists (mouseButtonReleased qx qy g1).
  split; [exact Hrun|]. split; [exact Hpos|].
  split; [rewrite Hl; unfold launchVelocity; by rewrite Himp|].
  split.
  { rewrite Hl. unfold Vector2_length.
    rewrite launchVelocity_norm.
    - simpl. apply sqrt_square. lra.
    - apply Vector2_length_pos. intros E. apply Hq.
      change (ballPositions g1) with (ballPositions g) in E.
      destruct (ballPositions g !!! 0%nat) as [ax ay].
      injection E as Hx Hy. simpl in *. f_equal; lra. }
  split.
  { intros i Hi. unfold mouseButtonReleased. rewrite Hslow0. simpl.
    by rewrite list_lookup_total_insert_ne. }
  split; [exact Hcl|]. rewrite Hpr. apply flit_R_0.
Qed.

End MoreExact.

(** ** More of the program, in single precision *)

Section MoreSingle.
Local Open Scope float_scope.

Implicit Types (a b : binary32) (g : Game binary32).

Lemma SFsub_diag a : zeroOrNan (a - a).
Proof.
  destruct a as [[]|[]| |s m e]; simpl; try done.
  by rewrite Z.sub_diag.
Qed.

Lemma normolize_zeroOrNan a b :
  zeroOrNan a -> zeroOrNan b ->
  Vector2_normolize (mkVector2 a b)
  = mkVector2 (float := binary32) S754_nan S754_nan.
Proof.
  destruct a as [[]|[]| |s m e], b as [[]|[]| |s' m' e']; try done.
Qed.

Lemma fmul_nan_l (b : binary32) : S754_nan * b = S754_nan.
Proof. by destruct b. Qed.

Lemma nan_not_slow :
  (Vector2_length (mkVector2 (float := binary32) S754_nan S754_nan)
   <? flit (1 # 100)) = false.
Proof. vm_compute. reflexivity. Qed.

(** X20.  In binary32, a release exactly on the cue ball while it is
    below [0.01] divides by the zero length in [normolize]: whatever
    the position and the charge, both components of the velocity of
    the cue ball become NaN.  A NaN speed is not below [0.01], so no
    later release shoots the cue ball again: the velocity stays as it
    is at every release. *)
Theorem release_on_cue_nan_forever g :
  wf g ->
  (Vector2_length (ballVelocities g !!! 0%nat) <? flit (1 # 100)) = true ->
  let p0 := ballPositions g !!! 0%nat in
  let g' := mouseButtonReleased (x p0) (y p0) g in
  ballVelocities g' !!! 0%nat = mkVector2 (float := binary32) S754_nan S754_nan
  /\ (forall px py,
        ballVelocities (mouseButtonReleased px py g') = ballVelocities g')
  /\ slow (ballVelocities g' !!! 0%nat) = false.
Proof.
  intros Hwf Hslow. cbv zeta.
  assert (Hnan : ballVelocities
                   (mouseButtonReleased (x (ballPositions g !!! 0%nat))
                      (y (ballPositions g !!! 0%nat)) g) !!! 0%nat
                 = mkVector2 (float := binary32) S754_nan S754_nan).
  { rewrite mouseButtonReleased_launch by done.
    unfold launchVelocity, Vector2_sub. cbn [x y].
    rewrite normolize_zeroOrNan by apply SFsub_diag.
    unfold Vector2_scale. cbn [x y]. by rewrite !fmul_nan_l. }
  split; [exact Hnan|].
  split.
  - intros px py. unfold mouseButtonReleased at 1.
    by rewrite Hnan, nan_not_slow.
  - rewrite Hnan. exact nan_not_slow.
Qed.

End MoreSingle.

(** ** More theorems at work in binary32 *)

Section MoreEvaluated.
Local Open Scope float_scope.

(** The reads of [dir] find the temporary intact. *)
#[local] Existing Instance intactReads.

Lemma ballIntoPocket_othersSlow : othersSlow 1 (ballIntoPocket (float := binary32)).
Proof.
  intros j Hj Hlt.
  change (length (ballVelocities (ballIntoPocket (float := binary32))))
    with 7%nat in Hlt.
  destruct j as [|[|[|[|[|[|[|j]]]]]]]; try lia; vm_compute; reflexivity.
Qed.

Lemma rollingCue_othersSlow : othersSlow 0 (rollingCue (float := binary32)).
Proof.
  intros j Hj Hlt.
  change (length (ballVelocities (rollingCue (float := binary32))))
    with 7%nat in Hlt.
  destruct j as [|[|[|[|[|[|[|j]]]]]]]; try lia; vm_compute; reflexivity.
Qed.

Lemma cueAtBorder_othersSlow : othersSlow 0 (cueAtBorder (float := binary32)).
Proof.
  intros j Hj Hlt.
  change (length (ballVelocities (cueAtBorder (float := binary32))))
    with 7%nat in Hlt.
  destruct j as [|[|[|[|[|[|[|j]]]]]]]; try lia; vm_compute; reflexivity.
Qed.

Lemma init_twice_aborts_witness :
  init (Game_new (float := binary32)) = Some rack
  /\ init (rack (float := binary32)) = None
  /\ exists g'' : Game binary32,
       init (deinit rack) = Some g''
       /\ ballPositions g'' = ballsPositions
       /\ ballVelocities g'' = replicate 7 Vector2_zero.
Proof.
  assert (H : init (Game_new (float := binary32)) = Some rack)
    by (vm_compute; reflexivity).
  destruct (init_twice_aborts Game_new rack H) as (Hn & Hre & _).
  split; [exact H|]. split; [exact Hn | exact Hre].
Defined.

Lemma frozen_for_good_witness :
  let es : list (Event binary32) :=
    [Update tick; MouseButtonPressed (flit 0) (flit 0); Update longTick;
     MouseButtonReleased (flit 0) (flit 0); Update tick] in
  isFreeze (allRolling (float := binary32)) = true
  /\ exists g', run es allRolling = Some g'
       /\ ballPositions g' = ballPositions allRolling
       /\ ballVelocities g' = ballVelocities allRolling.
Proof.
  cbv zeta.
  assert (Hf : isFreeze (allRolling (float := binary32)) = true)
    by (vm_compute; reflexivity).
  split; [exact Hf|].
  destruct (frozen_for_good
              [Update tick; MouseButtonPressed (flit 0) (flit 0); Update longTick;
               MouseButtonReleased (flit 0) (flit 0); Update tick]
              allRolling Hf) as (g' & Hr & Hp & Hv & _).
  exists g'. auto.
Defined.

Lemma pocket_tick_witness :
  wf (ballIntoPocket (float := binary32))
  /\ othersSlow 1 (ballIntoPocket (float := binary32))
  /\ (Vector2_length (ballVelocities (ballIntoPocket (float := binary32)) !!! 1%nat)
      <=? accurance) = false
  /\ inPocket (ballEndPos tick 1 (ballIntoPocket (float := binary32))) = true
  /\ exists g' : Game binary32,
       update tick ballIntoPocket = Some g'
       /\ pocketedOut 1 g'
       /\ ballPositions g' !!! 0%nat = ballPositions ballIntoPocket !!! 0%nat.
Proof.
  assert (Hwf : wf (ballIntoPocket (float := binary32))) by (split; reflexivity).
  assert (Hv : (Vector2_length
                  (ballVelocities (ballIntoPocket (float := binary32)) !!! 1%nat)
                <=? accurance) = false) by (vm_compute; reflexivity).
  assert (Hp : inPocket (ballEndPos tick 1 (ballIntoPocket (float := binary32)))
               = true) by (vm_compute; reflexivity).
  split; [exact Hwf|]. split; [exact ballIntoPocket_othersSlow|].
  split; [exact Hv|]. split; [exact Hp|].
  assert (Hi : (0 < 1 < 7)%nat) by lia.
  destruct (pocket_tick tick 1 ballIntoPocket Hwf Hi
              ballIntoPocket_othersSlow zero_slow_binary32 Hv Hp)
    as (g' & Hu & Hpos & _ & Hout).
  exists g'. split; [exact Hu|]. split; [exact Hout|]. by rewrite Hpos.
Defined.

Lemma free_roll_tick_witness :
  wf (rollingCue (float := binary32))
  /\ othersSlow 0 (rollingCue (float := binary32))
  /\ (Vector2_length (ballVelocities (rollingCue (float := binary32)) !!! 0%nat)
      <=? accurance) = false
  /\ inPocket (ballEndPos tick 0 (rollingCue (float := binary32))) = false
  /\ hitsBorderX (ballEndPos tick 0 (rollingCue (float := binary32)))
     || hitsBorderY (ballEndPos tick 0 (rollingCue (float := binary32))) = false
  /\ findClosestBall rollingCue (ballEndPos tick 0 (rollingCue (float := binary32))) 0
     = 0%nat
  /\ exists g' : Game binary32,
       update tick rollingCue = Some g'
       /\ ballPositions g' !!! 0%nat = ballEndPos tick 0 rollingCue.
Proof.
  assert (Hwf : wf (rollingCue (float := binary32))) by (split; reflexivity).
  assert (Hv : (Vector2_length
                  (ballVelocities (rollingCue (float := binary32)) !!! 0%nat)
                <=? accurance) = false) by (vm_compute; reflexivity).
  assert (Hp : inPocket (ballEndPos tick 0 (rollingCue (float := binary32)))
               = false) by (vm_compute; reflexivity).
  assert (Hb : hitsBorderX (ballEndPos tick 0 (rollingCue (float := binary32)))
               || hitsBorderY (ballEndPos tick 0 (rollingCue (float := binary32)))
               = false) by (vm_compute; reflexivity).
  assert (Hc : findClosestBall rollingCue
                 (ballEndPos tick 0 (rollingCue (float := binary32))) 0
               = 0%nat) by (vm_compute; reflexivity).
  split; [exact Hwf|]. split; [exact rollingCue_othersSlow|].
  split; [exact Hv|]. split; [exact Hp|]. split; [exact Hb|]. split; [exact Hc|].
  assert (Hi : (0 < 7)%nat) by lia.
  destruct (free_roll_tick tick 0 rollingCue Hwf Hi
              rollingCue_othersSlow Hv Hp Hb Hc) as (g' & Hu & Hpos & _).
  exists g'. split; [exact Hu|]. rewrite Hpos. reflexivity.
Defined.

Lemma border_bounce_tick_witness :
  wf (cueAtBorder (float := binary32))
  /\ othersSlow 0 (cueAtBorder (float := binary32))
  /\ (Vector2_length (ballVelocities (cueAtBorder (float := binary32)) !!! 0%nat)
      <=? accurance) = false
  /\ inPocket (ballEndPos tick 0 (cueAtBorder (float := binary32))) = false
  /\ hitsBorderX (ballEndPos tick 0 (cueAtBorder (float := binary32))) = true
  /\ exists g' : Game binary32,
       update tick cueAtBorder = Some g'
       /\ ballPositions g' = ballPositions cueAtBorder
       /\ (x (ballVelocities g' !!! 0%nat) <? flit 0) = true.
Proof.
  assert (Hwf : wf (cueAtBorder (float := binary32))) by (split; reflexivity).
  assert (Hv : (Vector2_length
                  (ballVelocities (cueAtBorder (float := binary32)) !!! 0%nat)
                <=? accurance) = false) by (vm_compute; reflexivity).
  assert (Hp : inPocket (ballEndPos tick 0 (cueAtBorder (float := binary32)))
               = false) by (vm_compute; reflexivity).
  assert (Hx : hitsBorderX (ballEndPos tick 0 (cueAtBorder (float := binary32)))
               = true) by (vm_compute; reflexivity).
  assert (Hb : hitsBorderX (ballEndPos tick 0 (cueAtBorder (float := binary32)))
               || hitsBorderY (ballEndPos tick 0 (cueAtBorder (float := binary32)))
               = true) by (rewrite Hx; reflexivity).
  split; [exact Hwf|]. split; [exact cueAtBorder_othersSlow|].
  split; [exact Hv|]. split; [exact Hp|]. split; [exact Hx|].
  assert (Hi : (0 < 7)%nat) by lia.
  destruct (border_bounce_tick tick 0 cueAtBorder Hwf Hi
              cueAtBorder_othersSlow Hv Hp Hb) as (g' & Hu & Hpos & Hvel).
  exists g'. split; [exact Hu|]. split; [exact Hpos|].
  rewrite Hvel. vm_compute. reflexivity.
Defined.

Lemma pair_collision_step_witness :
  wf (obliquePair (float := binary32))
  /\ processed 0 (obliquePair (float := binary32)) ∅ = true
  /\ inPocket (ballEndPos tick 0 (obliquePair (float := binary32))) = false
  /\ hitsBorderX (ballEndPos tick 0 (obliquePair (float := binary32)))
     || hitsBorderY (ballEndPos tick 0 (obliquePair (float := binary32))) = false
  /\ findClosestBall obliquePair (ballEndPos tick 0 (obliquePair (float := binary32))) 0
     = 1%nat
  /\ exists g' : Game binary32,
       ballStep tick 0 obliquePair ∅ = Next g' ({[0%nat; 1%nat]} ∪ ∅)
       /\ ballVelocities g' !!! 0%nat <> ballVelocities obliquePair !!! 0%nat
       /\ ballPositions g' !!! 2%nat = ballPositions obliquePair !!! 2%nat
       /\ ballStep tick 1 g' ({[0%nat; 1%nat]} ∪ ∅) = Next g' ({[0%nat; 1%nat]} ∪ ∅).
Proof.
  assert (Hwf : wf (obliquePair (float := binary32))) by (split; reflexivity).
  assert (Hpr : processed 0 (obliquePair (float := binary32)) ∅ = true)
    by (vm_compute; reflexivity).
  assert (Hp : inPocket (ballEndPos tick 0 (obliquePair (float := binary32)))
               = false) by (vm_compute; reflexivity).
  assert (Hb : hitsBorderX (ballEndPos tick 0 (obliquePair (float := binary32)))
               || hitsBorderY (ballEndPos tick 0 (obliquePair (float := binary32)))
               = false) by (vm_compute; reflexivity).
  assert (Hc : findClosestBall obliquePair
                 (ballEndPos tick 0 (obliquePair (float := binary32))) 0
               = 1%nat) by (vm_compute; reflexivity).
  assert (Hne : findClosestBall obliquePair
                  (ballEndPos tick 0 (obliquePair (float := binary32))) 0
                <> 0%nat) by (rewrite Hc; discriminate).
  assert (Hmoved :
            match ballStep tick 0 (obliquePair (float := binary32)) ∅ with
            | Next h _ =>
                ballVelocities h !!! 0%nat <> ballVelocities obliquePair !!! 0%nat
            | _ => False
            end) by (vm_compute; discriminate).
  split; [exact Hwf|]. split; [exact Hpr|]. split; [exact Hp|].
  split; [exact Hb|]. split; [exact Hc|].
  assert (Hi : (0 < 7)%nat) by lia.
  pose proof (pair_collision_step tick 0 obliquePair ∅ Hwf Hi
                Hpr Hp Hb Hne) as Hstep.
  cbv zeta in Hstep. rewrite Hc in Hstep.
  destruct Hstep as (g' & Hs & _ & _ & _ & _ & _ & Hothers & Hskip).
  rewrite Hs in Hmoved.
  exists g'. split; [exact Hs|]. split; [exact Hmoved|].
  split; [|exact Hskip].
  apply (Hothers 2%nat); discriminate.
Defined.

Lemma scene_mirrors_positions_witness :
  let es : list (Event binary32) :=
    [MouseButtonPressed (flit 0) (flit 0); Update tick;
     MouseButtonReleased (flit 0) (flit 0); Update tick; Update tick] in
  mirrored (rack (float := binary32))
  /\ exists g', run es rack = Some g' /\ mirrored g'.
Proof.
  cbv zeta.
  assert (Hm : mirrored (rack (float := binary32))).
  { apply (init_mirrored Game_new). vm_compute. reflexivity. }
  split; [exact Hm|].
  exact (scene_mirrors_positions
           [MouseButtonPressed (flit 0) (flit 0); Update tick;
            MouseButtonReleased (flit 0) (flit 0); Update tick; Update tick]
           rack Hm).
Defined.

Lemma release_on_cue_nan_forever_witness :
  let g := chargedRack (float := binary32) in
  let p0 := ballPositions g !!! 0%nat in
  let g' := mouseButtonReleased (x p0) (y p0) g in
  wf g
  /\ (Vector2_length (ballVelocities g !!! 0%nat) <? flit (1 # 100)) = true
  /\ ballVelocities g' !!! 0%nat = mkVector2 (float := binary32) S754_nan S754_nan
  /\ ballVelocities (mouseButtonReleased (flit 0) (flit 0) g') = ballVelocities g'.
Proof.
  cbv zeta.
  assert (Hwf : wf (chargedRack (float := binary32))) by (split; reflexivity).
  assert (Hv : (Vector2_length (ballVelocities (chargedRack (float := binary32))
                                !!! 0%nat) <? flit (1 # 100)) = true)
    by (vm_compute; reflexivity).
  pose proof (release_on_cue_nan_forever chargedRack Hwf Hv) as Hrel.
  cbv zeta in Hrel. destruct Hrel as (Hnan & Hlater & _).
  split; [exact Hwf|]. split; [exact Hv|]. split; [exact Hnan|].
  exact (Hlater (flit 0) (flit 0)).
Defined.

End MoreEvaluated.

(** ** More theorems at work in exact arithmetic *)

Section MoreExactWitnesses.
Local Open Scope R_scope.

(** The reads of [dir] find the temporary intact. *)
#[local] Existing Instance intactReads.

Lemma unit_x_not_slow : slow (mkVector2 (float := R) 1 0) = false.
Proof.
  unfold slow. apply Rltb_ge.
  unfold Vector2_length, Vector2_norm, accurance. cbn [x y].
  rewrite flit_R_cent. simpl.
  replace (1 * 1 + 0 * 0) with 1 by ring. rewrite sqrt_1. lra.
Qed.

Lemma rack_at_rest :
  Forall (fun v => slow v = true) (ballVelocities (rack (float := R))).
Proof.
  change (ballVelocities (rack (float := R)))
    with (replicate 7 (Vector2_zero (float := R))).
  repeat (constructor; [exact zero_slow_R|]). constructor.
Qed.

Lemma Vector2_normolize_round_trip_witness :
  let v := mkVector2 (float := R) 3 4 in
  v <> mkVector2 0 0
  /\ Vector2_length (Vector2_normolize v) = 1
  /\ Vector2_scale (Vector2_normolize v) (Vector2_length v) = v
  /\ Vector2_scale_left (Vector2_length v) (Vector2_normolize v) = v.
Proof.
  cbv zeta.
  assert (Hv : mkVector2 (float := R) 3 4 <> mkVector2 0 0).
  { intros E. apply (f_equal x) in E. simpl in E. lra. }
  split; [exact Hv|].
  destruct (Vector2_normolize_round_trip _ Hv) as (H1 & H2 & H3 & _).
  auto.
Defined.

Lemma reduceVelocity_rub_witness :
  let v := mkVector2 (float := R) 1 0 in
  0 <= 1
  /\ slow v = false
  /\ reduceVelocity 1 v
     = mkVector2 (rub (3 / 100 * 1 * (981 / 100)) 1)
                 (rub (3 / 100 * 1 * (981 / 100)) 0)
  /\ Rabs (x (reduceVelocity 1 v)) <= Rabs 1.
Proof.
  cbv zeta.
  assert (Hdt : 0 <= 1) by lra.
  split; [exact Hdt|]. split; [exact unit_x_not_slow|].
  pose proof (reduceVelocity_rub 1 (mkVector2 1 0) Hdt unit_x_not_slow) as H.
  cbv zeta in H. destruct H as (H1 & H2 & _).
  split; [exact H1 | exact H2].
Defined.

Lemma reduceVelocities_slows_witness :
  0 <= 1 / 60
  /\ ballPositions (reduceVelocities (1 / 60) (borderPair (float := R)))
     = ballPositions borderPair
  /\ Vector2_length
       (ballVelocities (reduceVelocities (1 / 60) (borderPair (float := R))) !!! 0%nat)
     <= Vector2_length (ballVelocities (borderPair (float := R)) !!! 0%nat).
Proof.
  assert (Hdt : 0 <= 1 / 60) by lra.
  split; [exact Hdt|].
  destruct (reduceVelocities_slows (1 / 60) borderPair Hdt) as (Hp & _ & Hall).
  split; [exact Hp|]. exact (proj2 (Hall 0%nat)).
Defined.

Lemma conflict_position_witness :
  let v := mkVector2 (float := R) 3 4 in
  let p := mkVector2 (float := R) 0 0 in
  let dtau := calculateTimeConflict 1 (Vector2_length v) in
  v <> mkVector2 0 0
  /\ Vector2_length
       (Vector2_sub (mkVector2 (x p + x v * dtau) (y p + y v * dtau)) p)
     = Rabs (1 - 6 / 10)
  /\ 0 <= dtau.
Proof.
  cbv zeta.
  assert (Hv : mkVector2 (float := R) 3 4 <> mkVector2 0 0).
  { intros E. apply (f_equal x) in E. simpl in E. lra. }
  split; [exact Hv|].
  pose proof (conflict_position (mkVector2 0 0) _ 1 Hv) as H.
  cbv zeta in H. destruct H as (Hl & Hd).
  split; [exact Hl|]. apply Hd. lra.
Defined.

Lemma charge_accumulates_witness :
  let g := mouseButtonPressed 0 0 (Game_new (float := R)) in
  isChargingShot g = true
  /\ Forall (fun dt => 0 <= dt) [1 / 2; 1 / 4]
  /\ 0 <= shotChargeProgress g <= 1
  /\ exists g',
       run (Update <$> [1 / 2; 1 / 4]) g = Some g'
       /\ shotChargeProgress g'
          = Rmin (shotChargeProgress g + elapsed [1 / 2; 1 / 4]) 1.
Proof.
  cbv zeta.
  assert (Hc : isChargingShot (mouseButtonPressed 0 0 (Game_new (float := R)))
               = true) by reflexivity.
  assert (Hd : Forall (fun dt => 0 <= dt) [1 / 2; 1 / 4]).
  { repeat constructor; lra. }
  assert (Hp : 0 <= shotChargeProgress
                      (mouseButtonPressed 0 0 (Game_new (float := R))) <= 1).
  { simpl. unfold Q2R. simpl. lra. }
  split; [exact Hc|]. split; [exact Hd|]. split; [exact Hp|].
  destruct (charge_accumulates [1 / 2; 1 / 4] _ Hc Hd Hp)
    as (g' & Hr & _ & Hq).
  exists g'. split; [exact Hr | exact Hq].
Defined.

Lemma full_shot_witness :
  let g := rack (float := R) in
  wf g
  /\ Forall (fun v => slow v = true) (ballVelocities g)
  /\ Forall (fun dt => 0 <= dt) [1 / 2; 1]
  /\ 0 <= shotChargeProgress g <= 1
  /\ mkVector2 0 0 <> ballPositions g !!! 0%nat
  /\ exists g',
       run (MouseButtonPressed 0 0 :: (Update <$> [1 / 2; 1])
              ++ [MouseButtonReleased 0 0]) g = Some g'
       /\ ballPositions g' = ballPositions g
       /\ Vector2_length (ballVelocities g' !!! 0%nat)
          = 6 * Rmin (shotChargeProgress g + elapsed [1 / 2; 1]) 1.
Proof.
  cbv zeta.
  assert (Hwf : wf (rack (float := R))) by (split; reflexivity).
  assert (Hd : Forall (fun dt => 0 <= dt) [1 / 2; 1]).
  { repeat constructor; lra. }
  assert (Hp : 0 <= shotChargeProgress (rack (float := R)) <= 1).
  { simpl. unfold Q2R. simpl. lra. }
  assert (Hq : mkVector2 0 0 <> ballPositions (rack (float := R)) !!! 0%nat).
  { intros E. apply (f_equal x) in E. revert E.
    simpl. unfold Q2R. simpl. lra. }
  split; [exact Hwf|]. split; [exact rack_at_rest|]. split; [exact Hd|].
  split; [exact Hp|]. split; [exact Hq|].
  destruct (full_shot 0 0 0 0 [1 / 2; 1] rack Hwf rack_at_rest Hd Hp Hq)
    as (g' & Hr & Hpos & _ & Hlen & _).
  exists g'. split; [exact Hr|]. split; [exact Hpos | exact Hlen].
Defined.

End MoreExactWitnesses.
